(** * SCMLex hypergraph: builder and query engine

    A shallow embedding of [hypergraph/build_hypergraph.py] (class
    [SCMLexHypergraph]) and [hypergraph/query_hypergraph.py] (class
    [HypergraphQuery]), together with the properties of the graph builder
    and of the traversal queries.

    Conventions of the embedding:
    - a Python dict read with [d.get(k, default)] or tested with [k in d]
      is a record whose fields are options ([None] = key absent);
    - a number of the payload (a confidence, an impact, a strength) is the
      rational of [Q] that its JSON literal denotes; arithmetic on those
      numbers is given twice: on binary64 floats, as Python runs it
      ([compute_path_confidence_float]), and on the rationals themselves,
      without the rounding of the products ([compute_path_confidence]),
      for the results on order and on the worked scenario;
    - a raised exception is the left injection of a sum, threaded through
      the loops by a small error monad;
    - the [networkx.MultiDiGraph] is a finite map of node attribute bags
      plus the list of its edges in insertion order. *)

From Stdlib Require Import QArith Qround Lqa.
From Stdlib Require Import PrimFloat SpecFloat FloatOps FloatAxioms.
From stdpp Require Import gmap strings list fin_maps.

Close Scope Q_scope.
Local Open Scope string_scope.
Local Open Scope list_scope.

(** ** Exceptions and the error monad *)

Inductive exception : Type :=
  | KeyError (key : string)
  | NodeNotFound (node : string).

Definition result (A : Type) : Type := exception + A.

Definition raise {A} (e : exception) : result A := inl e.
Definition ok {A} (x : A) : result A := inr x.

#[export] Instance result_ret : MRet result := λ A x, inr x.
#[export] Instance result_bind : MBind result := λ A B k m,
  match m with
  | inl e => inl e
  | inr x => k x
  end.

(** [for x in l: s = f(s, x)], stopping at the first exception. *)
Fixpoint for_each {A S} (f : S → A → result S) (s : S) (l : list A) : result S :=
  match l with
  | [] => ok s
  | x :: l' => s' ← f s x; for_each f s' l'
  end.

(** [d[key]]: a missing key raises [KeyError]. *)
Definition getitem {A} (key : string) (v : option A) : result A :=
  match v with
  | Some x => ok x
  | None => raise (KeyError key)
  end.

(** [d.get(key, default)]. *)
Definition get {A} (v : option A) (default : A) : A :=
  match v with
  | Some x => x
  | None => default
  end.

(** ** The ingest payload (the JSON document read by [load_from_tuples]) *)

Record principle_dict := {
  p_node_id : option string;
  p_name : option string;
  p_description : option string;
  p_domains : option (list string);
  p_confidence : option Q;
  p_provenance : option string;
  p_inference_type : option string;
  p_application_context : option string
}.

Record rule_dict := {
  r_node_id : option string;
  r_level : option Z;
  r_name : option string;
  r_description : option string;
  r_jurisdiction : option string;
  r_legal_domain : option string;
  r_confidence : option Q;
  r_derived_from : option (list string);
  r_inference_type : option string
}.

Record concept_dict := {
  c_node_id : option string;
  c_name : option string;
  c_description : option string;
  c_domains : option (list string)
}.

Record domain_dict := {
  d_node_id : option string;
  d_name : option string
}.

(** The value under ['target_nodes'] is either one scalar or a list. *)
Inductive targets_value :=
  | TScalar (t : string)
  | TList (ts : list string).

Record relationship_dict := {
  rel_source_node : option string;
  rel_target_nodes : option targets_value;
  rel_target_node : option string;
  rel_relationship_name : option string;
  rel_strength : option Q;
  rel_hyperedge_id : option string
}.

Record derivation_dict := {
  der_source_nodes : option (list string);
  der_target_node : option string;
  der_inference_type : option string;
  der_confidence_impact : option Q;
  der_hyperedge_id : option string;
  der_description : option string
}.

Record nodes_group := {
  principles : option (list principle_dict);
  rules : option (list rule_dict);
  concepts : option (list concept_dict);
  domains_group : option (list domain_dict)
}.

Record hyperedges_group := {
  relationships : option (list relationship_dict);
  derivations : option (list derivation_dict)
}.

Record ingest_payload := {
  nodes : option nodes_group;
  hyperedges_in : option hyperedges_group
}.

(** ** The multigraph *)

(** Attribute bag of a node: the keyword arguments of [add_node]. *)
Record node_data := {
  node_type : option string;
  level : option Z;
  name : option string;
  description : option string;
  domains : option (list string);
  confidence : option Q;
  provenance : option string;
  inference_type : option string;
  application_context : option string;
  jurisdiction : option string;
  legal_domain : option string;
  derived_from : option (list string)
}.

Definition no_attrs : node_data :=
  {| node_type := None; level := None; name := None; description := None;
     domains := None; confidence := None; provenance := None;
     inference_type := None; application_context := None;
     jurisdiction := None; legal_domain := None; derived_from := None |}.

(** One key of [dict.update]: the new value wins when it is given. *)
Definition upd {A} (new old : option A) : option A :=
  match new with
  | Some _ => new
  | None => old
  end.

(** [old.update(new)] on attribute bags. *)
Definition update_attrs (old new : node_data) : node_data :=
  {| node_type := upd (node_type new) (node_type old);
     level := upd (level new) (level old);
     name := upd (name new) (name old);
     description := upd (description new) (description old);
     domains := upd (domains new) (domains old);
     confidence := upd (confidence new) (confidence old);
     provenance := upd (provenance new) (provenance old);
     inference_type := upd (inference_type new) (inference_type old);
     application_context := upd (application_context new) (application_context old);
     jurisdiction := upd (jurisdiction new) (jurisdiction old);
     legal_domain := upd (legal_domain new) (legal_domain old);
     derived_from := upd (derived_from new) (derived_from old) |}.

(** Attribute bag of an edge: the keyword arguments of [add_edge]. *)
Record edge_data := {
  edge_type : option string;
  relationship_name : option string;
  strength : option Q;
  hyperedge_id : option string;
  e_inference_type : option string;
  confidence_impact : option Q;
  e_description : option string
}.

Record edge := {
  e_src : string;
  e_tgt : string;
  e_key : nat;
  e_data : edge_data
}.

(** [g_node] is the library's node dict, [g_edges] lists the edges in the
    order of their insertion (the nested adjacency dicts of the library
    are the views [parallel] and [out_edges] of this list). *)
Record MultiDiGraph := {
  g_node : gmap string node_data;
  g_edges : list edge
}.

Definition empty_graph : MultiDiGraph := {| g_node := ∅; g_edges := [] |}.

Definition has_node (g : MultiDiGraph) (n : string) : bool :=
  bool_decide (is_Some (g_node g !! n)).

(** [G.add_node(n, **attrs)]: a new node gets the bag, an existing node has
    its bag updated. *)
Definition add_node (g : MultiDiGraph) (n : string) (attrs : node_data) : MultiDiGraph :=
  {| g_node := <[n := update_attrs (get (g_node g !! n) no_attrs) attrs]> (g_node g);
     g_edges := g_edges g |}.

Definition connects (u v : string) (e : edge) : bool :=
  bool_decide (e_src e = u) && bool_decide (e_tgt e = v).

(** The edges from [u] to [v], oldest first: the key dict [G[u][v]]. *)
Definition parallel (g : MultiDiGraph) (u v : string) : list edge :=
  filter (λ e, connects u v e = true) (g_edges g).

(** [new_edge_key]: start from the number of parallel edges and skip the
    keys in use. *)
Fixpoint next_free_key (fuel : nat) (keys : list nat) (k : nat) : nat :=
  match fuel with
  | O => k
  | S fuel' => if bool_decide (k ∈ keys) then next_free_key fuel' keys (S k) else k
  end.

Definition new_edge_key (g : MultiDiGraph) (u v : string) : nat :=
  let keys := e_key <$> parallel g u v in
  next_free_key (S (length keys)) keys (length keys).

(** The endpoint of a new edge is added to the node dict when missing. *)
Definition touch_node (m : gmap string node_data) (n : string) : gmap string node_data :=
  match m !! n with
  | Some _ => m
  | None => <[n := no_attrs]> m
  end.

(** [G.add_edge(u, v, **attrs)]. *)
Definition add_edge (g : MultiDiGraph) (u v : string) (attrs : edge_data) : MultiDiGraph :=
  {| g_node := touch_node (touch_node (g_node g) u) v;
     g_edges := g_edges g ++
       [{| e_src := u; e_tgt := v; e_key := new_edge_key g u v; e_data := attrs |}] |}.

(** ** The builder state *)

Inductive hyperedge :=
  | HRelationship (rel : relationship_dict)
  | HDerivation (deriv : derivation_dict).

Record SCMLexHypergraph := {
  graph : MultiDiGraph;
  hyperedges : list hyperedge;
  node_index : gmap string string
}.

(** [__init__]. *)
Definition init : SCMLexHypergraph :=
  {| graph := empty_graph; hyperedges := []; node_index := ∅ |}.

(** [if 'name' in d: self.node_index[d['name']] = node_id]. *)
Definition index_name (idx : gmap string string) (nm : option string) (node_id : string)
    : gmap string string :=
  match nm with
  | Some n => <[n := node_id]> idx
  | None => idx
  end.

Definition with_node (hg : SCMLexHypergraph) (node_id : string) (attrs : node_data)
    (nm : option string) : SCMLexHypergraph :=
  {| graph := add_node (graph hg) node_id attrs;
     hyperedges := hyperedges hg;
     node_index := index_name (node_index hg) nm node_id |}.

(** ** The graph builder ([SCMLexHypergraph]) *)

Definition principle_attrs (p : principle_dict) : node_data :=
  {| node_type := Some "principle";
     level := Some 1%Z;
     name := Some (get (p_name p) "");
     description := Some (get (p_description p) "");
     domains := Some (get (p_domains p) []);
     confidence := Some (get (p_confidence p) 1%Q);
     provenance := Some (get (p_provenance p) "");
     inference_type := Some (get (p_inference_type p) "");
     application_context := Some (get (p_application_context p) "");
     jurisdiction := None; legal_domain := None; derived_from := None |}.

Definition rule_attrs (r : rule_dict) : node_data :=
  {| node_type := Some "rule";
     level := Some (get (r_level r) 2%Z);
     name := Some (get (r_name r) "");
     description := Some (get (r_description r) "");
     jurisdiction := Some (get (r_jurisdiction r) "");
     legal_domain := Some (get (r_legal_domain r) "");
     confidence := Some (get (r_confidence r) (95 # 100)%Q);
     derived_from := Some (get (r_derived_from r) []);
     inference_type := Some (get (r_inference_type r) "deductive");
     domains := None; provenance := None; application_context := None |}.

Definition concept_attrs (c : concept_dict) : node_data :=
  {| node_type := Some "concept";
     name := Some (get (c_name c) "");
     description := Some (get (c_description c) "");
     domains := Some (get (c_domains c) []);
     level := None; confidence := None; provenance := None;
     inference_type := None; application_context := None;
     jurisdiction := None; legal_domain := None; derived_from := None |}.

Definition domain_attrs (d : domain_dict) : node_data :=
  {| node_type := Some "domain";
     name := Some (get (d_name d) "");
     level := None; description := None; domains := None; confidence := None;
     provenance := None; inference_type := None; application_context := None;
     jurisdiction := None; legal_domain := None; derived_from := None |}.

(** One turn of the loop of [_add_principles]. *)
Definition add_principle (hg : SCMLexHypergraph) (p : principle_dict)
    : result SCMLexHypergraph :=
  node_id ← getitem "node_id" (p_node_id p);
  ok (with_node hg node_id (principle_attrs p) (p_name p)).

Definition _add_principles (hg : SCMLexHypergraph) (ps : list principle_dict)
    : result SCMLexHypergraph :=
  for_each add_principle hg ps.

Definition add_rule (hg : SCMLexHypergraph) (r : rule_dict) : result SCMLexHypergraph :=
  node_id ← getitem "node_id" (r_node_id r);
  ok (with_node hg node_id (rule_attrs r) (r_name r)).

Definition _add_rules (hg : SCMLexHypergraph) (rs : list rule_dict)
    : result SCMLexHypergraph :=
  for_each add_rule hg rs.

Definition add_concept (hg : SCMLexHypergraph) (c : concept_dict)
    : result SCMLexHypergraph :=
  node_id ← getitem "node_id" (c_node_id c);
  ok (with_node hg node_id (concept_attrs c) (c_name c)).

(** [if concepts:] guards the loop. *)
Definition _add_concepts (hg : SCMLexHypergraph) (cs : list concept_dict)
    : result SCMLexHypergraph :=
  match cs with
  | [] => ok hg
  | _ :: _ => for_each add_concept hg cs
  end.

Definition add_domain (hg : SCMLexHypergraph) (d : domain_dict) : result SCMLexHypergraph :=
  node_id ← getitem "node_id" (d_node_id d);
  ok (with_node hg node_id (domain_attrs d) (d_name d)).

Definition _add_domains (hg : SCMLexHypergraph) (ds : list domain_dict)
    : result SCMLexHypergraph :=
  for_each add_domain hg ds.

(** [self.node_index.get(ref, ref)]: resolve a name, or pass the reference
    through unchanged. *)
Definition resolve (idx : gmap string string) (ref : string) : string :=
  get (idx !! ref) ref.

(** The same on a reference that may be [None] (a relationship with neither
    ['target_nodes'] nor ['target_node']): [None] is no key of the index and
    no node of the graph. *)
Definition resolve_opt (idx : gmap string string) (ref : option string) : option string :=
  resolve idx <$> ref.

Definition has_node_opt (g : MultiDiGraph) (n : option string) : bool :=
  match n with
  | Some n => has_node g n
  | None => false
  end.

(** [targets = rel.get('target_nodes', [rel.get('target_node')])], then a
    scalar is wrapped in a list. *)
Definition relationship_targets (rel : relationship_dict) : list (option string) :=
  match rel_target_nodes rel with
  | Some (TList ts) => Some <$> ts
  | Some (TScalar t) => [Some t]
  | None => [rel_target_node rel]
  end.

Definition relationship_edge (rel : relationship_dict) : edge_data :=
  {| edge_type := Some "relationship";
     relationship_name := Some (get (rel_relationship_name rel) "related-to");
     strength := Some (get (rel_strength rel) (9 # 10)%Q);
     hyperedge_id := Some (get (rel_hyperedge_id rel) "");
     e_inference_type := None; confidence_impact := None; e_description := None |}.

Definition with_graph (hg : SCMLexHypergraph) (g : MultiDiGraph) : SCMLexHypergraph :=
  {| graph := g; hyperedges := hyperedges hg; node_index := node_index hg |}.

Definition with_hyperedge (hg : SCMLexHypergraph) (h : hyperedge) : SCMLexHypergraph :=
  {| graph := graph hg; hyperedges := hyperedges hg ++ [h]; node_index := node_index hg |}.

(** One turn of the inner loop of [_add_relationships]. *)
Definition add_relationship_target (rel : relationship_dict) (source : string)
    (hg : SCMLexHypergraph) (target : option string) : SCMLexHypergraph :=
  let source_id := resolve (node_index hg) source in
  let target_id := resolve_opt (node_index hg) target in
  match target_id with
  | Some target_id =>
      if has_node (graph hg) source_id && has_node (graph hg) target_id
      then with_graph hg (add_edge (graph hg) source_id target_id (relationship_edge rel))
      else hg
  | None => hg
  end.

(** One turn of the outer loop of [_add_relationships]. *)
Definition add_relationship (hg : SCMLexHypergraph) (rel : relationship_dict)
    : result SCMLexHypergraph :=
  source ← getitem "source_node" (rel_source_node rel);
  let targets := relationship_targets rel in
  let hg' := foldl (add_relationship_target rel source) hg targets in
  ok (if bool_decide (1 < length targets) then with_hyperedge hg' (HRelationship rel)
      else hg').

Definition _add_relationships (hg : SCMLexHypergraph) (rels : list relationship_dict)
    : result SCMLexHypergraph :=
  for_each add_relationship hg rels.

Definition derivation_edge (deriv : derivation_dict) : edge_data :=
  {| edge_type := Some "derivation";
     e_inference_type := Some (get (der_inference_type deriv) "deductive");
     confidence_impact := Some (get (der_confidence_impact deriv) (95 # 100)%Q);
     hyperedge_id := Some (get (der_hyperedge_id deriv) "");
     e_description := Some (get (der_description deriv) "");
     relationship_name := None; strength := None |}.

(** One turn of the inner loop of [_add_derivations]: the source is resolved
    through the index, [target_id = target_node] is not. *)
Definition add_derivation_source (deriv : derivation_dict) (target_node : string)
    (hg : SCMLexHypergraph) (source : string) : SCMLexHypergraph :=
  let source_id := resolve (node_index hg) source in
  let target_id := target_node in
  if has_node (graph hg) source_id && has_node (graph hg) target_id
  then with_graph hg (add_edge (graph hg) source_id target_id (derivation_edge deriv))
  else hg.

(** One turn of the outer loop of [_add_derivations]. *)
Definition add_derivation (hg : SCMLexHypergraph) (deriv : derivation_dict)
    : SCMLexHypergraph :=
  let source_nodes := get (der_source_nodes deriv) [] in
  let target_node := get (der_target_node deriv) "" in
  let hg' := foldl (add_derivation_source deriv target_node) hg source_nodes in
  with_hyperedge hg' (HDerivation deriv).

Definition _add_derivations (hg : SCMLexHypergraph) (derivs : list derivation_dict)
    : SCMLexHypergraph :=
  foldl add_derivation hg derivs.

(** [load_from_tuples], from the parsed JSON document on; the statistics it
    computes at the end are a function of the finished graph that no query
    below reads, and are left out. *)
Definition load_from_tuples (hg : SCMLexHypergraph) (data : ingest_payload)
    : result SCMLexHypergraph :=
  ns ← getitem "nodes" (nodes data);
  ps ← getitem "principles" (principles ns);
  hg ← _add_principles hg ps;
  ns ← getitem "nodes" (nodes data);
  rs ← getitem "rules" (rules ns);
  hg ← _add_rules hg rs;
  ns ← getitem "nodes" (nodes data);
  cs ← getitem "concepts" (concepts ns);
  hg ← _add_concepts hg cs;
  ns ← getitem "nodes" (nodes data);
  ds ← getitem "domains" (domains_group ns);
  hg ← _add_domains hg ds;
  hs ← getitem "hyperedges" (hyperedges_in data);
  rels ← getitem "relationships" (relationships hs);
  hg ← _add_relationships hg rels;
  hs ← getitem "hyperedges" (hyperedges_in data);
  derivs ← getitem "derivations" (derivations hs);
  ok (_add_derivations hg derivs).

(** The snapshot built from a payload by a fresh builder. *)
Definition build (data : ingest_payload) : result SCMLexHypergraph :=
  load_from_tuples init data.

(** ** Views of the multigraph used by the queries *)

(** [G.nodes[n]]: a node that is not in the graph raises [KeyError]. *)
Definition nodes_getitem (g : MultiDiGraph) (n : string) : result node_data :=
  match g_node g !! n with
  | Some d => ok d
  | None => raise (KeyError n)
  end.

(** The elements of [l] in the order of their first occurrence. *)
Fixpoint first_occurrences (seen l : list string) : list string :=
  match l with
  | [] => []
  | x :: l' =>
      if bool_decide (x ∈ seen) then first_occurrences seen l'
      else x :: first_occurrences (x :: seen) l'
  end.

(** The keys of the adjacency dict [G[u]]: the successors of [u], in the
    order in which their first edge from [u] was added. *)
Definition successors (g : MultiDiGraph) (u : string) : list string :=
  first_occurrences [] (e_tgt <$> filter (λ e, e_src e = u) (g_edges g)).

(** [G.out_edges(u, data=True)] and [G.edges(u, keys=True)] for a node [u]
    of the graph: successor by successor, and for each successor the
    parallel edges by key. *)
Definition out_edges (g : MultiDiGraph) (u : string) : list edge :=
  v ← successors g u; parallel g u v.

(** [G.get_edge_data(u, v)]: the key dict of the edges from [u] to [v], or
    [None] when there is none. *)
Definition get_edge_data (g : MultiDiGraph) (u v : string) : option (list edge) :=
  match parallel g u v with
  | [] => None
  | es => Some es
  end.

(** Modelled from the spec: [networkx.all_simple_paths] is not part of the
    sources; section 9 of the specification describes it as a depth-first
    search with a visited set, bounded by the cutoff. [path] is the current
    path (it ends in [cur]) and [fuel] the number of nodes that may still be
    appended before the target; one path is produced per sequence of
    parallel edges, and the search does not go through the target. *)
Fixpoint extend_paths (g : MultiDiGraph) (target : string) (fuel : nat)
    (path : list string) (cur : string) : list (list string) :=
  e ← out_edges g cur;
  let v := e_tgt e in
  if bool_decide (v ∈ path) then []
  else if bool_decide (v = target) then [path ++ [v]]
  else match fuel with
       | O => []
       | S fuel' => extend_paths g target fuel' (path ++ [v]) v
       end.

(** Modelled from the spec: [networkx.all_simple_paths(G, source, target,
    cutoff)]. A source that is no node raises [NodeNotFound]; so does, in
    this model, a target that is no node. A negative cutoff gives no path,
    and the one path from a node to itself is the trivial one. *)
Definition all_simple_paths (g : MultiDiGraph) (source target : string) (cutoff : Z)
    : result (list (list string)) :=
  if negb (has_node g source) then raise (NodeNotFound source)
  else if negb (has_node g target) then raise (NodeNotFound target)
  else ok (if bool_decide (cutoff < 0)%Z then []
           else if bool_decide (source = target) then [[source]]
           else if bool_decide (cutoff = 0)%Z then []
           else extend_paths g target (Z.to_nat (cutoff - 1)) [source] source).

(** One round of the breadth-first search: every path of the frontier (kept
    in reverse, its last node first) is extended by the successors that
    were not reached before. *)
Fixpoint expand_path (p : list string) (vs : list string) (seen : list string)
    : list string * list (list string) :=
  match vs with
  | [] => (seen, [])
  | v :: vs' =>
      if bool_decide (v ∈ seen) then expand_path p vs' seen
      else let '(seen', ps) := expand_path p vs' (v :: seen) in (seen', (v :: p) :: ps)
  end.

Fixpoint expand_frontier (g : MultiDiGraph) (frontier : list (list string))
    (seen : list string) : list string * list (list string) :=
  match frontier with
  | [] => (seen, [])
  | p :: frontier' =>
      let '(seen1, ps1) := expand_path p (successors g (get (head p) "")) seen in
      let '(seen2, ps2) := expand_frontier g frontier' seen1 in
      (seen2, ps1 ++ ps2)
  end.

Fixpoint bfs (g : MultiDiGraph) (target : string) (fuel : nat) (seen : list string)
    (frontier : list (list string)) : option (list string) :=
  match list_find (λ p, head p = Some target) frontier with
  | Some (_, p) => Some (reverse p)
  | None =>
      match fuel with
      | O => None
      | S fuel' =>
          let '(seen', next) := expand_frontier g frontier seen in
          match next with
          | [] => None
          | _ :: _ => bfs g target fuel' seen' next
          end
      end
  end.

(** Modelled from the spec: [networkx.shortest_path(G, source, target)] is
    not part of the sources; the specification asks for one shortest path
    by edge count found breadth-first. [None] stands for the library's
    [NetworkXNoPath]; an endpoint that is no node raises [NodeNotFound].
    Which of several equally short paths the library returns is not fixed
    by this model. *)
Definition shortest_path (g : MultiDiGraph) (source target : string)
    : result (option (list string)) :=
  if negb (has_node g source) then raise (NodeNotFound source)
  else if negb (has_node g target) then raise (NodeNotFound target)
  else ok (bfs g target (size (g_node g)) [source] [[source]]).

(** ** The query engine ([HypergraphQuery]) *)

(** The value of ['edge_to_next'] in a chain step. *)
Record edge_view := {
  ev_type : option string;
  ev_inference_type : option string;
  ev_confidence_impact : option Q
}.

(** A step of a chain or of a detailed path. *)
Record chain_item := {
  item_step : option Z;
  item_id : option string;
  item_name : option string;
  item_type : option string;
  item_level : option Z;
  item_confidence : option Q;
  edge_to_next : option edge_view
}.

(** [not node_id], for the result of [self.node_index.get(name)]. *)
Definition unresolved (node_id : option string) : bool :=
  match node_id with
  | None => true
  | Some n => bool_decide (n = "")
  end.

(** The ['edge_to_next'] built from one attribute bag. *)
Definition edge_view_of (d : edge_data) : edge_view :=
  {| ev_type := Some (get (edge_type d) "");
     ev_inference_type := Some (get (e_inference_type d) "");
     ev_confidence_impact := Some (get (confidence_impact d) 1%Q) |}.

(** The same three [get]s on a key dict that has no key [0]: its keys are
    edge keys, so every default is taken. *)
Definition edge_view_defaults : edge_view :=
  {| ev_type := Some "";
     ev_inference_type := Some "";
     ev_confidence_impact := Some 1%Q |}.

(** Lines 143 to 152 of [build_inference_chain]. *)
Definition edge_to_next_of (g : MultiDiGraph) (u v : string) : option edge_view :=
  match get_edge_data g u v with
  | None => None
  | Some keydict =>
      match list_find (λ e, e_key e = 0) keydict with
      | Some (_, e) => Some (edge_view_of (e_data e))
      | None => Some edge_view_defaults
      end
  end.

(** The loop of [build_inference_chain] over [enumerate(path)], from index
    [i] on. *)
Fixpoint chain_items (g : MultiDiGraph) (i : nat) (path : list string)
    : result (list chain_item) :=
  match path with
  | [] => ok []
  | node_id :: rest =>
      nd ← nodes_getitem g node_id;
      let item :=
        {| item_step := Some (Z.of_nat i + 1)%Z;
           item_id := Some node_id;
           item_name := Some (get (name nd) "");
           item_type := Some (get (node_type nd) "");
           item_level := Some (get (level nd) 0%Z);
           item_confidence := Some (get (confidence nd) 1%Q);
           edge_to_next :=
             match rest with
             | [] => None
             | next :: _ => edge_to_next_of g node_id next
             end |} in
      items ← chain_items g (S i) rest;
      ok (item :: items)
  end.

Definition build_inference_chain (hg : SCMLexHypergraph) (start_principle end_rule : string)
    : result (option (list chain_item)) :=
  let start_id := node_index hg !! start_principle in
  let end_id := node_index hg !! end_rule in
  if unresolved start_id || unresolved end_id then ok None
  else
    path ← shortest_path (graph hg) (get start_id "") (get end_id "");
    match path with
    | None => ok None
    | Some path => chain ← chain_items (graph hg) 0 path; ok (Some chain)
    end.

(** Python's [round(x, 0)] to an integer: to the nearest, a tie to the even
    neighbour. *)
Definition round_half_even (q : Q) : Z :=
  let f := Qfloor q in
  match (q - inject_Z f ?= 1 # 2)%Q with
  | Lt => f
  | Gt => (f + 1)%Z
  | Eq => if Z.even f then f else (f + 1)%Z
  end.

(** [round(x, 4)] on an exact rational. *)
Definition round4 (q : Q) : Q := (round_half_even (q * 10000) # 10000)%Q.

(** One turn of the loop of [compute_path_confidence], in exact
    arithmetic. *)
Definition confidence_step (conf : Q) (item : chain_item) : Q :=
  let conf := (conf * get (item_confidence item) 1)%Q in
  match edge_to_next item with
  | Some ev => (conf * get (ev_confidence_impact ev) 1)%Q
  | None => conf
  end.

Definition compute_path_confidence (path : list chain_item) : Q :=
  round4 (foldl confidence_step 1%Q path).

(** ** The same loop in double precision

    [compute_path_confidence] above multiplies and rounds exact rationals;
    Python runs the loop on IEEE 754 doubles, where every product is
    rounded to 53 bits and [round(x, 4)] rounds the double it is given.
    The definitions below run the loop on binary64 floats. A stored
    confidence is read as the JSON number it was loaded from. *)

(** The double nearest to [n / d], a tie going to the even mantissa: what
    Python holds for a decimal literal, for [float(n)] and for [n / d]. *)
Definition nearest_double (s : bool) (n d : positive) : float :=
  SF2Prim (SFdiv prec emax (S754_finite s n 0) (S754_finite false d 0)).

(** The double that Python multiplies with when the payload held the
    number [q]: [json.load] reads a decimal literal to the nearest double,
    and an integer is converted to the nearest double by [float * int]. A
    decimal literal beyond the range of doubles reads as infinity; an
    integer that large, where Python raises [OverflowError], is outside
    this model. *)
Definition float_of_Q (q : Q) : float :=
  match Qnum q with
  | Z0 => 0%float
  | Zpos n => nearest_double false n (Qden q)
  | Zneg n => nearest_double true n (Qden q)
  end.

(** The exact value [m * 2 ^ e] of the magnitude of a finite double. *)
Definition magnitude (m : positive) (e : Z) : Q :=
  match e with
  | Z0 => Zpos m # 1
  | Zpos k => Zpos m * 2 ^ Zpos k # 1
  | Zneg k => Zpos m # 2 ^ k
  end.

(** [round(x, 4)] on a double: the exact value of [x] is rounded to four
    decimals, a tie to the even digit, and the decimal that results is
    read back to the nearest double; zeros keep their sign, infinities and
    nan are returned as they are. *)
Definition float_round4 (x : float) : float :=
  match Prim2SF x with
  | S754_finite s m e =>
      match round_half_even (magnitude m e * 10000)%Q with
      | Zpos n => nearest_double s n 10000
      | _ => if s then (-0)%float else 0%float
      end
  | _ => x
  end.

(** One turn of the loop of [compute_path_confidence], on doubles. *)
Definition float_confidence_step (conf : float) (item : chain_item) : float :=
  let conf := (conf * float_of_Q (get (item_confidence item) 1%Q))%float in
  match edge_to_next item with
  | Some ev => (conf * float_of_Q (get (ev_confidence_impact ev) 1%Q))%float
  | None => conf
  end.

Definition compute_path_confidence_float (path : list chain_item) : float :=
  float_round4 (foldl float_confidence_step 1%float path).

(** The inner loop of [find_all_paths] over [enumerate(path)]. *)
Fixpoint detailed_path (g : MultiDiGraph) (i : nat) (path : list string)
    : result (list chain_item) :=
  match path with
  | [] => ok []
  | node_id :: rest =>
      nd ← nodes_getitem g node_id;
      let item :=
        {| item_step := Some (Z.of_nat i + 1)%Z;
           item_id := Some node_id;
           item_name := Some (get (name nd) "");
           item_type := Some (get (node_type nd) "");
           item_level := None;
           item_confidence := Some (get (confidence nd) 1%Q);
           edge_to_next := None |} in
      items ← detailed_path g (S i) rest;
      ok (item :: items)
  end.

(** [for x in l: out.append(f(x))], stopping at the first exception. *)
Fixpoint collect {A B} (f : A → result B) (l : list A) : result (list B) :=
  match l with
  | [] => ok []
  | x :: l' => y ← f x; ys ← collect f l'; ok (y :: ys)
  end.

Definition find_all_paths (hg : SCMLexHypergraph) (start_principle end_rule : string)
    (max_length : Z) : result (list (list chain_item)) :=
  let start_id := node_index hg !! start_principle in
  let end_id := node_index hg !! end_rule in
  if unresolved start_id || unresolved end_id then ok []
  else
    paths ← all_simple_paths (graph hg) (get start_id "") (get end_id "") max_length;
    collect (detailed_path (graph hg) 0) paths.

(** The dicts returned by [find_rules_derived_from_principle]. *)
Record rule_view := {
  rv_id : string;
  rv_name : string;
  rv_description : string;
  rv_jurisdiction : string;
  rv_legal_domain : string;
  rv_confidence : Q;
  rv_inference_type : string
}.

(** One turn of the loop of [find_rules_derived_from_principle]. *)
Definition derived_rule (g : MultiDiGraph) (e : edge) : result (list rule_view) :=
  if bool_decide (edge_type (e_data e) = Some "derivation") then
    target_data ← nodes_getitem g (e_tgt e);
    ok [{| rv_id := e_tgt e;
           rv_name := get (name target_data) "";
           rv_description := get (description target_data) "";
           rv_jurisdiction := get (jurisdiction target_data) "";
           rv_legal_domain := get (legal_domain target_data) "";
           rv_confidence := get (confidence target_data) (95 # 100)%Q;
           rv_inference_type := get (e_inference_type (e_data e)) "deductive" |}]
  else ok [].

Definition find_rules_derived_from_principle (hg : SCMLexHypergraph)
    (principle_name : string) : result (list rule_view) :=
  let principle_id := node_index hg !! principle_name in
  if unresolved principle_id then ok []
  else
    found ← collect (derived_rule (graph hg)) (out_edges (graph hg) (get principle_id ""));
    ok (concat found).

(** The dicts returned by [find_related_principles]. *)
Record related_view := {
  rl_id : string;
  rl_name : string;
  rl_description : string;
  rl_relationship : string;
  rl_strength : Q
}.

(** One turn of the loop of [find_related_principles]. *)
Definition related_principle (g : MultiDiGraph) (e : edge) : result (list related_view) :=
  if bool_decide (edge_type (e_data e) = Some "relationship") then
    target_data ← nodes_getitem g (e_tgt e);
    if bool_decide (node_type target_data = Some "principle") then
      ok [{| rl_id := e_tgt e;
             rl_name := get (name target_data) "";
             rl_description := get (description target_data) "";
             rl_relationship := get (relationship_name (e_data e)) "related-to";
             rl_strength := get (strength (e_data e)) (9 # 10)%Q |}]
    else ok []
  else ok [].

Definition find_related_principles (hg : SCMLexHypergraph) (principle_name : string)
    : result (list related_view) :=
  let principle_id := node_index hg !! principle_name in
  if unresolved principle_id then ok []
  else
    found ← collect (related_principle (graph hg)) (out_edges (graph hg) (get principle_id ""));
    ok (concat found).

(** [get_principle_by_name], as far as its accesses go: the name is
    resolved and the attribute bag of the node is read. *)
Definition get_principle_by_name (hg : SCMLexHypergraph) (nm : string)
    : result (option (string * node_data)) :=
  let node_id := node_index hg !! nm in
  if unresolved node_id then ok None
  else
    data ← nodes_getitem (graph hg) (get node_id "");
    ok (Some (get node_id "", data)).

(** ** Well-formed snapshots *)

(** No edge dangles. *)
Definition edges_closed (g : MultiDiGraph) : Prop :=
  ∀ e, e ∈ g_edges g → is_Some (g_node g !! e_src e) ∧ is_Some (g_node g !! e_tgt e).

(** The keys of the parallel edges between two nodes count up from [0] in
    the order of insertion. *)
Definition keys_canonical (g : MultiDiGraph) : Prop :=
  ∀ u v, e_key <$> parallel g u v = seq 0 (length (parallel g u v)).

(** The name index only points at nodes of the graph. *)
Definition index_closed (hg : SCMLexHypergraph) : Prop :=
  ∀ nm node_id, node_index hg !! nm = Some node_id →
    is_Some (g_node (graph hg) !! node_id).

Record well_formed (hg : SCMLexHypergraph) : Prop := {
  wf_edges : edges_closed (graph hg);
  wf_keys : keys_canonical (graph hg);
  wf_index : index_closed hg
}.

(** ** Payloads used as examples *)

Definition mk_principle (node_id nm : string) (conf : option Q) : principle_dict :=
  {| p_node_id := Some node_id; p_name := Some nm; p_description := None;
     p_domains := Some ["contract"]; p_confidence := conf; p_provenance := None;
     p_inference_type := None; p_application_context := None |}.

Definition mk_rule (node_id nm : string) (conf : option Q) : rule_dict :=
  {| r_node_id := Some node_id; r_level := None; r_name := Some nm;
     r_description := None; r_jurisdiction := Some "ZA";
     r_legal_domain := Some "contract"; r_confidence := conf;
     r_derived_from := None; r_inference_type := None |}.

Definition mk_relationship (source : string) (targets : list string) : relationship_dict :=
  {| rel_source_node := Some source; rel_target_nodes := Some (TList targets);
     rel_target_node := None; rel_relationship_name := None;
     rel_strength := Some (9 # 10)%Q; rel_hyperedge_id := None |}.

Definition mk_derivation (sources : list string) (target : string) (impact : option Q)
    : derivation_dict :=
  {| der_source_nodes := Some sources; der_target_node := Some target;
     der_inference_type := None; der_confidence_impact := impact;
     der_hyperedge_id := None; der_description := None |}.

Definition mk_payload (ps : list principle_dict) (rs : list rule_dict)
    (rels : list relationship_dict) (derivs : list derivation_dict) : ingest_payload :=
  {| nodes := Some {| principles := Some ps; rules := Some rs;
                      concepts := Some []; domains_group := Some [] |};
     hyperedges_in := Some {| relationships := Some rels; derivations := Some derivs |} |}.

(** The scenario of section 8 of the specification: two principles, one
    relationship between them, and a rule derived from the first principle;
    the derivation names its target by node id, as the extractor does. *)
Definition contract_scenario : ingest_payload :=
  mk_payload
    [mk_principle "P1" "pacta-sunt-servanda" (Some 1%Q); mk_principle "P2" "good-faith" None]
    [mk_rule "R1" "enforce-contract" (Some (95 # 100)%Q)]
    [mk_relationship "pacta-sunt-servanda" ["good-faith"]]
    [mk_derivation ["pacta-sunt-servanda"] "R1" None].

(** A relationship whose only target names no node. *)
Definition dangling_relationship : relationship_dict :=
  mk_relationship "pacta-sunt-servanda" ["no-such-principle"].

Definition dangling_scenario : ingest_payload :=
  mk_payload [mk_principle "P1" "pacta-sunt-servanda" (Some 1%Q)] []
    [dangling_relationship] [].

(** A relationship with two targets, one of which names no node. *)
Definition half_dangling_relationship : relationship_dict :=
  mk_relationship "pacta-sunt-servanda" ["good-faith"; "no-such-principle"].

(** A derivation that names its target rule by name instead of by id. *)
Definition named_target_derivation : derivation_dict :=
  mk_derivation ["pacta-sunt-servanda"] "enforce-contract" None.

(** The nodes of the contract scenario, before any hyperedge is added. *)
Definition contract_nodes : ingest_payload :=
  mk_payload
    [mk_principle "P1" "pacta-sunt-servanda" (Some 1%Q); mk_principle "P2" "good-faith" None]
    [mk_rule "R1" "enforce-contract" (Some (95 # 100)%Q)] [] [].

(** The specification's reading of the target of a derivation: a
    [target_node] that is a key of the name index yields edges that point
    at the node id the index gives for it. *)
Definition derivation_target_resolved (hg : SCMLexHypergraph) (deriv : derivation_dict)
    : Prop :=
  ∀ source node_id,
    source ∈ get (der_source_nodes deriv) [] →
    node_index hg !! get (der_target_node deriv) "" = Some node_id →
    has_node (graph hg) (resolve (node_index hg) source) = true →
    has_node (graph hg) node_id = true →
    ∃ e, e ∈ g_edges (graph (add_derivation hg deriv)) ∧
      e_src e = resolve (node_index hg) source ∧ e_tgt e = node_id.

(** ** What a payload must contain *)

(** Every record of [l] has the key read by [key]. *)
Definition all_keyed {A V} (key : A → option V) (l : list A) : bool :=
  forallb (λ x, bool_decide (is_Some (key x))) l.

(** The payload has its six groups, every node record has its ['node_id']
    and every relationship its ['source_node']. *)
Definition payload_complete (data : ingest_payload) : bool :=
  match nodes data, hyperedges_in data with
  | Some ns, Some hs =>
      match principles ns, rules ns, concepts ns, domains_group ns,
            relationships hs, derivations hs with
      | Some ps, Some rs, Some cs, Some ds, Some rels, Some _ =>
          all_keyed p_node_id ps && all_keyed r_node_id rs &&
          all_keyed c_node_id cs && all_keyed d_node_id ds &&
          all_keyed rel_source_node rels
      | _, _, _, _, _, _ => false
      end
  | _, _ => false
  end.

(** The four groups that the specification calls required. *)
Definition has_required_groups (data : ingest_payload) : bool :=
  match nodes data, hyperedges_in data with
  | Some ns, Some hs =>
      bool_decide (is_Some (principles ns)) && bool_decide (is_Some (rules ns)) &&
      bool_decide (is_Some (relationships hs)) && bool_decide (is_Some (derivations hs))
  | _, _ => false
  end.

(** The contract scenario without its (empty) ['concepts'] group. *)
Definition no_concepts_scenario : ingest_payload :=
  {| nodes := Some {| principles := Some [mk_principle "P1" "pacta-sunt-servanda" (Some 1%Q)];
                      rules := Some [mk_rule "R1" "enforce-contract" (Some (95 # 100)%Q)];
                      concepts := None; domains_group := Some [] |};
     hyperedges_in := Some {| relationships := Some [];
                              derivations := Some [mk_derivation ["pacta-sunt-servanda"] "R1" None] |} |}.

(** ** Chains and their factors *)

(** What one step contributes to the product of [compute_path_confidence]. *)
Definition item_factor (item : chain_item) : Q :=
  (get (item_confidence item) 1 *
   match edge_to_next item with
   | Some ev => get (ev_confidence_impact ev) 1
   | None => 1
   end)%Q.

Definition chain_product (chain : list chain_item) : Q :=
  foldr (λ item acc, (item_factor item * acc)%Q) 1%Q chain.



(** The factors of a chain in the order the loop meets them: the
    confidence of a step, then the impact of its edge when it has one. *)
Definition chain_factors (chain : list chain_item) : list Q :=
  item ← chain;
  get (item_confidence item) 1%Q ::
  match edge_to_next item with
  | Some ev => [get (ev_confidence_impact ev) 1%Q]
  | None => []
  end.

(** The product of doubles taken from the left, starting at 1.0, each
    partial product rounded to a double. *)
Definition float_product (l : list float) : float := foldl PrimFloat.mul 1%float l.



(** A step that carries only a confidence. *)
Definition node_step (conf : option Q) : chain_item :=
  {| item_step := None; item_id := None; item_name := None; item_type := None;
     item_level := None; item_confidence := conf; edge_to_next := None |}.

Definition with_edge_to_next (item : chain_item) (ev : edge_view) : chain_item :=
  {| item_step := item_step item; item_id := item_id item; item_name := item_name item;
     item_type := item_type item; item_level := item_level item;
     item_confidence := item_confidence item; edge_to_next := Some ev |}.



Definition impact_view (impact : option Q) : edge_view :=
  {| ev_type := None; ev_inference_type := None; ev_confidence_impact := impact |}.

(** A node of confidence 0.65, an edge of impact 0.95, a node of confidence
    0.9: the exact product 0.55575 is a tie between 0.5557 and 0.5558. *)
Definition tie_chain : list chain_item :=
  [with_edge_to_next (node_step (Some (65 # 100)%Q)) (impact_view (Some (95 # 100)%Q));
   node_step (Some (9 # 10)%Q)].


(** ** Directed paths *)

Definition is_edge (g : MultiDiGraph) (u v : string) : Prop :=
  ∃ e, e ∈ g_edges g ∧ e_src e = u ∧ e_tgt e = v.

(** Consecutive nodes of [p] are joined by an edge of [g]. *)
Fixpoint directed_path (g : MultiDiGraph) (p : list string) : Prop :=
  match p with
  | u :: rest =>
      match rest with
      | v :: _ => is_edge g u v ∧ directed_path g rest
      | [] => True
      end
  | [] => True
  end.

Definition is_node (g : MultiDiGraph) (n : string) : Prop := is_Some (g_node g !! n).

(** Three principles related in a cycle A → B → C → A, and a rule derived
    from C. *)
Definition cyclic_scenario : ingest_payload :=
  mk_payload
    [mk_principle "A" "a" None; mk_principle "B" "b" None; mk_principle "C" "c" None]
    [mk_rule "R" "r" None]
    [mk_relationship "a" ["b"]; mk_relationship "b" ["c"]; mk_relationship "c" ["a"]]
    [mk_derivation ["c"] "R" None; mk_derivation ["a"] "R" None].

(** * Properties *)

(** ** The error monad and the loops *)

Lemma bind_ok {A B} (m : result A) (k : A → result B) (y : B) :
  m ≫= k = inr y → ∃ x, m = inr x ∧ k x = inr y.
Proof. destruct m as [e|x]; [discriminate | eauto]. Qed.

Lemma getitem_ok {A} key (v : option A) (x : A) :
  getitem key v = inr x → v = Some x.
Proof. destruct v; unfold getitem, ok, raise; congruence. Qed.

Lemma getitem_missing {A} key : getitem key (@None A) = inl (KeyError key).
Proof. reflexivity. Qed.

(** A property kept by every turn of a loop holds when the loop ends. *)
Lemma for_each_preserves {A S} (P : S → Prop) (f : S → A → result S) l :
  (∀ s x s', P s → f s x = inr s' → P s') →
  ∀ s s', P s → for_each f s l = inr s' → P s'.
Proof.
  intros Hstep. induction l as [|x l IH]; intros s s' Hs Hrun; simpl in Hrun.
  - injection Hrun as <-. exact Hs.
  - apply bind_ok in Hrun as (s1 & Hx & Hrest). eauto.
Qed.

Lemma foldl_preserves {A S} (P : S → Prop) (f : S → A → S) l :
  (∀ s x, P s → P (f s x)) → ∀ s, P s → P (foldl f s l).
Proof. intros Hstep. induction l as [|x l IH]; simpl; auto. Qed.

(** A loop whose turns cannot raise runs to its end. *)
Lemma for_each_total {A S} (f : S → A → result S) l :
  (∀ s x, x ∈ l → ∃ s', f s x = inr s') → ∀ s, ∃ s', for_each f s l = inr s'.
Proof.
  induction l as [|x l IH]; intros Hstep s; simpl.
  - eauto.
  - destruct (Hstep s x) as [s1 ->]; [left|]. simpl.
    apply IH. intros s2 y Hy. apply Hstep. by right.
Qed.

(** ** Well-formed snapshots: the graph operations *)

Lemma has_node_true g n : has_node g n = true ↔ is_Some (g_node g !! n).
Proof. unfold has_node. apply bool_decide_eq_true. Qed.

Lemma has_node_false g n : has_node g n = false ↔ g_node g !! n = None.
Proof.
  unfold has_node. rewrite bool_decide_eq_false, <- eq_None_not_Some. done.
Qed.

Lemma add_node_keeps g n attrs m :
  is_Some (g_node g !! m) → is_Some (g_node (add_node g n attrs) !! m).
Proof. intros Hm. simpl. apply lookup_insert_is_Some. destruct (decide (n = m)); auto. Qed.

Lemma add_node_has g n attrs : is_Some (g_node (add_node g n attrs) !! n).
Proof. simpl. rewrite lookup_insert_eq. eauto. Qed.

Lemma touch_node_keeps m n k : is_Some (m !! k) → is_Some (touch_node m n !! k).
Proof.
  intros Hk. unfold touch_node. destruct (m !! n) eqn:Hn; [done|].
  apply lookup_insert_is_Some. destruct (decide (n = k)); auto.
Qed.

Lemma touch_node_has m n : is_Some (touch_node m n !! n).
Proof.
  unfold touch_node. destruct (m !! n) eqn:Hn; [by rewrite Hn|].
  rewrite lookup_insert_eq. eauto.
Qed.

(** With both endpoints present [add_edge] leaves the node dict alone. *)
Lemma touch_node_present m n : is_Some (m !! n) → touch_node m n = m.
Proof. intros [d Hd]. unfold touch_node. by rewrite Hd. Qed.

Lemma next_free_key_fresh fuel n : next_free_key (S fuel) (seq 0 n) n = n.
Proof.
  simpl. rewrite bool_decide_eq_false_2; [done|].
  rewrite list_elem_of_In, in_seq. lia.
Qed.

Lemma parallel_add_edge g u v attrs u' v' :
  parallel (add_edge g u v attrs) u' v' =
  parallel g u' v' ++
    (if connects u' v' {| e_src := u; e_tgt := v; e_key := new_edge_key g u v; e_data := attrs |}
     then [{| e_src := u; e_tgt := v; e_key := new_edge_key g u v; e_data := attrs |}]
     else []).
Proof.
  unfold parallel at 1. simpl. rewrite filter_app. f_equal.
  rewrite filter_cons, filter_nil.
  destruct (connects u' v' _); [by rewrite decide_True | by rewrite decide_False].
Qed.

Lemma add_edge_edges_closed g u v attrs :
  edges_closed g → edges_closed (add_edge g u v attrs).
Proof.
  intros Hg e. simpl. rewrite elem_of_app, list_elem_of_singleton.
  intros [He| ->]; simpl.
  - destruct (Hg e He). split; by do 2 apply touch_node_keeps.
  - split; [apply touch_node_keeps|]; apply touch_node_has.
Qed.

Lemma new_edge_key_canonical g u v :
  keys_canonical g → new_edge_key g u v = length (parallel g u v).
Proof.
  intros Hg. unfold new_edge_key. cbv zeta. rewrite Hg, length_seq.
  apply next_free_key_fresh.
Qed.

Lemma add_edge_keys_canonical g u v attrs :
  keys_canonical g → keys_canonical (add_edge g u v attrs).
Proof.
  intros Hg u' v'. rewrite parallel_add_edge, new_edge_key_canonical by done.
  destruct (connects u' v' _) eqn:Hc.
  - apply andb_true_iff in Hc as [Hu Hv].
    apply bool_decide_eq_true in Hu, Hv. simpl in Hu, Hv. subst u' v'.
    rewrite fmap_app, length_app, seq_app, Hg. reflexivity.
  - rewrite app_nil_r. apply Hg.
Qed.

Lemma init_well_formed : well_formed init.
Proof.
  split.
  - intros e He. simpl in He. by apply elem_of_nil in He.
  - intros u v. reflexivity.
  - intros nm node_id Hnm. simpl in Hnm. by rewrite lookup_empty in Hnm.
Qed.

Lemma with_node_well_formed hg node_id attrs nm :
  well_formed hg → well_formed (with_node hg node_id attrs nm).
Proof.
  intros [He Hk Hi]. split; simpl.
  - intros e Hin. destruct (He e Hin). split; by apply add_node_keeps.
  - exact Hk.
  - intros nm' nid Hl. unfold with_node in Hl.
    destruct nm as [n|]; cbn [index_name node_index] in Hl; revert Hl.
    + intros Hl. apply lookup_insert_Some in Hl as [[-> <-]|[Hne Hl]].
      * apply add_node_has.
      * apply add_node_keeps. eauto.
    + intros Hl. apply add_node_keeps. eauto.
Qed.

Lemma with_edge_well_formed hg u v attrs :
  well_formed hg → well_formed (with_graph hg (add_edge (graph hg) u v attrs)).
Proof.
  intros [He Hk Hi]. split; simpl.
  - by apply add_edge_edges_closed.
  - by apply add_edge_keys_canonical.
  - intros nm nid Hl. do 2 apply touch_node_keeps. eauto.
Qed.

Lemma with_hyperedge_well_formed hg h :
  well_formed hg → well_formed (with_hyperedge hg h).
Proof. intros [He Hk Hi]. by split. Qed.

(** ** The builder keeps snapshots well formed *)

(** Splits a successful run of a sequence of binds into its steps. *)
Ltac bind_inv H :=
  repeat match type of H with
         | _ ≫= _ = inr _ =>
             let x := fresh "x" in
             let Hx := fresh "Hx" in
             apply bind_ok in H as (x & Hx & H)
         end.

Lemma add_principle_well_formed hg p hg' :
  well_formed hg → add_principle hg p = inr hg' → well_formed hg'.
Proof.
  intros Hwf H. unfold add_principle in H. bind_inv H.
  injection H as <-. by apply with_node_well_formed.
Qed.

Lemma add_rule_well_formed hg r hg' :
  well_formed hg → add_rule hg r = inr hg' → well_formed hg'.
Proof.
  intros Hwf H. unfold add_rule in H. bind_inv H.
  injection H as <-. by apply with_node_well_formed.
Qed.

Lemma add_concept_well_formed hg c hg' :
  well_formed hg → add_concept hg c = inr hg' → well_formed hg'.
Proof.
  intros Hwf H. unfold add_concept in H. bind_inv H.
  injection H as <-. by apply with_node_well_formed.
Qed.

Lemma add_domain_well_formed hg d hg' :
  well_formed hg → add_domain hg d = inr hg' → well_formed hg'.
Proof.
  intros Hwf H. unfold add_domain in H. bind_inv H.
  injection H as <-. by apply with_node_well_formed.
Qed.

Lemma add_relationship_target_well_formed rel source hg target :
  well_formed hg → well_formed (add_relationship_target rel source hg target).
Proof.
  intros Hwf. unfold add_relationship_target.
  destruct (resolve_opt _ target) as [target_id|]; [|done].
  destruct (_ && _); [by apply with_edge_well_formed | done].
Qed.

Lemma add_relationship_well_formed hg rel hg' :
  well_formed hg → add_relationship hg rel = inr hg' → well_formed hg'.
Proof.
  intros Hwf H. unfold add_relationship in H. bind_inv H. injection H as <-.
  assert (well_formed (foldl (add_relationship_target rel x) hg (relationship_targets rel))).
  { apply foldl_preserves; [|done].
    intros. by apply add_relationship_target_well_formed. }
  destruct (bool_decide _); [by apply with_hyperedge_well_formed | done].
Qed.

Lemma add_derivation_source_well_formed deriv target_node hg source :
  well_formed hg → well_formed (add_derivation_source deriv target_node hg source).
Proof.
  intros Hwf. unfold add_derivation_source.
  destruct (_ && _); [by apply with_edge_well_formed | done].
Qed.

Lemma add_derivation_well_formed hg deriv :
  well_formed hg → well_formed (add_derivation hg deriv).
Proof.
  intros Hwf. unfold add_derivation. apply with_hyperedge_well_formed.
  apply foldl_preserves; [|done].
  intros. by apply add_derivation_source_well_formed.
Qed.

Lemma _add_principles_well_formed hg ps hg' :
  well_formed hg → _add_principles hg ps = inr hg' → well_formed hg'.
Proof. apply for_each_preserves. intros ????. by apply add_principle_well_formed. Qed.

Lemma _add_rules_well_formed hg rs hg' :
  well_formed hg → _add_rules hg rs = inr hg' → well_formed hg'.
Proof. apply for_each_preserves. intros ????. by apply add_rule_well_formed. Qed.

Lemma _add_concepts_well_formed hg cs hg' :
  well_formed hg → _add_concepts hg cs = inr hg' → well_formed hg'.
Proof.
  intros Hwf H. destruct cs as [|c cs].
  - by injection H as <-.
  - revert H. apply for_each_preserves; [|done].
    intros ????. by apply add_concept_well_formed.
Qed.

Lemma _add_domains_well_formed hg ds hg' :
  well_formed hg → _add_domains hg ds = inr hg' → well_formed hg'.
Proof. apply for_each_preserves. intros ????. by apply add_domain_well_formed. Qed.

Lemma _add_relationships_well_formed hg rels hg' :
  well_formed hg → _add_relationships hg rels = inr hg' → well_formed hg'.
Proof. apply for_each_preserves. intros ????. by apply add_relationship_well_formed. Qed.

Lemma _add_derivations_well_formed hg derivs :
  well_formed hg → well_formed (_add_derivations hg derivs).
Proof. apply foldl_preserves. intros. by apply add_derivation_well_formed. Qed.

Create HintDb snapshot discriminated.
#[local] Hint Resolve _add_principles_well_formed _add_rules_well_formed
  _add_concepts_well_formed _add_domains_well_formed
  _add_relationships_well_formed _add_derivations_well_formed : snapshot.

Lemma load_from_tuples_well_formed hg data hg' :
  well_formed hg → load_from_tuples hg data = inr hg' → well_formed hg'.
Proof.
  intros Hwf H. unfold load_from_tuples in H. bind_inv H. injection H as <-.
  eauto 10 with snapshot.
Qed.

Lemma build_well_formed data hg : build data = inr hg → well_formed hg.
Proof. apply load_from_tuples_well_formed, init_well_formed. Qed.

(** ** Resolution totality *)

Lemma out_edges_spec g u e : e ∈ out_edges g u → e ∈ g_edges g ∧ e_src e = u.
Proof.
  unfold out_edges. rewrite list_elem_of_bind. intros (v & He & _).
  unfold parallel in He. apply list_elem_of_filter in He as [Hc He].
  split; [done|]. apply andb_true_iff in Hc as [Hu _].
  by apply bool_decide_eq_true in Hu.
Qed.

(** A skipped endpoint pair leaves the builder state as it was. *)
Lemma add_relationship_target_skip rel source hg target :
  has_node (graph hg) (resolve (node_index hg) source) = false ∨
  has_node_opt (graph hg) (resolve_opt (node_index hg) target) = false →
  add_relationship_target rel source hg target = hg.
Proof.
  unfold add_relationship_target. destruct (resolve_opt _ target) as [t|]; [|done].
  simpl. intros [-> | ->]; [done|]. by rewrite andb_false_r.
Qed.

Lemma add_derivation_source_skip deriv target_node hg source :
  has_node (graph hg) (resolve (node_index hg) source) = false ∨
  has_node (graph hg) target_node = false →
  add_derivation_source deriv target_node hg source = hg.
Proof.
  unfold add_derivation_source. intros [-> | ->]; [done|]. by rewrite andb_false_r.
Qed.

(** C4. For every ingest payload that builds, each edge of the built graph
    (relationship or derivation) has its source and its target in the node
    set; and a turn of either edge loop whose resolved source or target is
    no node of the graph leaves the snapshot unchanged, without raising
    (the turn is a total function of the state). *)
Theorem resolution_totality (data : ingest_payload) (hg : SCMLexHypergraph) :
  build data = inr hg →
  (∀ e, e ∈ g_edges (graph hg) →
     has_node (graph hg) (e_src e) = true ∧ has_node (graph hg) (e_tgt e) = true) ∧
  (∀ rel source st target,
     has_node (graph st) (resolve (node_index st) source) = false ∨
     has_node_opt (graph st) (resolve_opt (node_index st) target) = false →
     add_relationship_target rel source st target = st) ∧
  (∀ deriv target_node st source,
     has_node (graph st) (resolve (node_index st) source) = false ∨
     has_node (graph st) target_node = false →
     add_derivation_source deriv target_node st source = st).
Proof.
  intros Hbuild. split; [|split].
  - intros e He. rewrite !has_node_true.
    by apply (wf_edges _ (build_well_formed _ _ Hbuild)).
  - apply add_relationship_target_skip.
  - apply add_derivation_source_skip.
Qed.

Lemma resolution_totality_witness :
  ∃ hg, build contract_scenario = inr hg ∧
    ∀ e, e ∈ g_edges (graph hg) →
      has_node (graph hg) (e_src e) = true ∧ has_node (graph hg) (e_tgt e) = true.
Proof.
  destruct (build contract_scenario) as [err|hg] eqn:Hb; [by vm_compute in Hb|].
  exists hg. split; [done|]. by apply (resolution_totality contract_scenario hg).
Defined.

(** ** The name index points at nodes *)

Lemma nodes_getitem_total g n :
  is_Some (g_node g !! n) → ∃ d, nodes_getitem g n = inr d.
Proof. intros [d Hd]. exists d. unfold nodes_getitem. by rewrite Hd. Qed.

Lemma collect_total {A B} (f : A → result B) l :
  (∀ x, x ∈ l → ∃ y, f x = inr y) → ∃ ys, collect f l = inr ys.
Proof.
  induction l as [|x l IH]; intros Hf; simpl; [by eexists|].
  destruct (Hf x) as [y ->]; [left|].
  destruct IH as [ys ->]; [intros; apply Hf; by right|].
  by eexists.
Qed.

Lemma unresolved_false o : unresolved o = false → ∃ n, o = Some n ∧ n ≠ "".
Proof.
  destruct o as [n|]; simpl; [|done].
  intros Hn%bool_decide_eq_false. eauto.
Qed.

Lemma derived_rule_total g e :
  is_Some (g_node g !! e_tgt e) → ∃ rs, derived_rule g e = inr rs.
Proof.
  intros [d Hd]%nodes_getitem_total. unfold derived_rule.
  destruct (bool_decide _); [rewrite Hd|]; by eexists.
Qed.

(** C10. After every successful build each value of the name index is the
    id of a node of the graph; hence the queries that resolve a name through
    the index and read the attributes of the nodes they reach
    ([get_principle_by_name], [find_rules_derived_from_principle]) return a
    result for every name and never raise on a missing node. *)
Theorem index_points_at_nodes (data : ingest_payload) (hg : SCMLexHypergraph) :
  build data = inr hg →
  (∀ nm node_id, node_index hg !! nm = Some node_id →
     has_node (graph hg) node_id = true) ∧
  (∀ nm, ∃ r, get_principle_by_name hg nm = inr r) ∧
  (∀ nm, ∃ rs, find_rules_derived_from_principle hg nm = inr rs).
Proof.
  intros [He Hk Hi]%build_well_formed. split; [|split].
  - intros nm node_id Hnm. apply has_node_true. eauto.
  - intros nm. unfold get_principle_by_name.
    destruct (unresolved _) eqn:Hu; [by eexists|].
    apply unresolved_false in Hu as (n & Hn & _). rewrite Hn. simpl.
    destruct (nodes_getitem_total (graph hg) n) as [d ->]; [eauto|]. by eexists.
  - intros nm. unfold find_rules_derived_from_principle.
    destruct (unresolved _) eqn:Hu; [by eexists|].
    destruct (collect_total (derived_rule (graph hg))
                (out_edges (graph hg) (get (node_index hg !! nm) ""))) as [found ->].
    + intros e [Hin _]%out_edges_spec. apply derived_rule_total.
      by destruct (He e Hin).
    + by eexists.
Qed.

Lemma index_points_at_nodes_witness :
  ∃ hg, build contract_scenario = inr hg ∧
    has_node (graph hg) "R1" = true ∧
    ∃ rs, find_rules_derived_from_principle hg "pacta-sunt-servanda" = inr rs.
Proof.
  destruct (build contract_scenario) as [err|hg] eqn:Hb; [by vm_compute in Hb|].
  exists hg. split; [done|].
  destruct (index_points_at_nodes contract_scenario hg Hb) as (Hidx & _ & Hq).
  split; [|apply Hq].
  apply (Hidx "enforce-contract").
  injection Hb as <-. by vm_compute.
Defined.

(** ** Retention of relationship hyperedges *)

Lemma add_relationship_target_hyperedges rel source hg target :
  hyperedges (add_relationship_target rel source hg target) = hyperedges hg.
Proof.
  unfold add_relationship_target.
  destruct (resolve_opt _ target); [|done]. by destruct (_ && _).
Qed.

Lemma add_relationship_targets_hyperedges rel source targets hg :
  hyperedges (foldl (add_relationship_target rel source) hg targets) = hyperedges hg.
Proof.
  revert hg. induction targets as [|t ts IH]; intros hg; simpl; [done|].
  by rewrite IH, add_relationship_target_hyperedges.
Qed.

Lemma add_relationship_targets_skip rel source targets hg :
  has_node (graph hg) (resolve (node_index hg) source) = false ∨
  Forall (λ t, has_node_opt (graph hg) (resolve_opt (node_index hg) t) = false) targets →
  foldl (add_relationship_target rel source) hg targets = hg.
Proof.
  induction targets as [|t ts IH]; intros Hskip; simpl; [done|].
  rewrite add_relationship_target_skip.
  - apply IH. destruct Hskip as [?|Hall]; [by left|right]. by inversion Hall.
  - destruct Hskip as [?|Hall]; [by left|right]. by inversion Hall.
Qed.

Lemma has_node_ext g1 g2 n : g_node g1 = g_node g2 → has_node g1 n = has_node g2 n.
Proof. unfold has_node. by intros ->. Qed.

(** A guarded [add_edge] does not touch the node dict. *)
Lemma add_edge_guarded_nodes g u v attrs :
  has_node g u && has_node g v = true → g_node (add_edge g u v attrs) = g_node g.
Proof.
  intros [Hu Hv]%andb_true_iff. apply has_node_true in Hu, Hv. simpl.
  rewrite (touch_node_present _ u) by done. by apply touch_node_present.
Qed.

(** The edges that the loop over the targets of one relationship adds: one
    for each target, in order, whose resolved id is a node, provided the
    resolved source is a node; nothing else changes. *)
Lemma add_relationship_targets_edges rel source targets hg :
  ∃ new,
    g_edges (graph (foldl (add_relationship_target rel source) hg targets)) =
      g_edges (graph hg) ++ new ∧
    g_node (graph (foldl (add_relationship_target rel source) hg targets)) =
      g_node (graph hg) ∧
    node_index (foldl (add_relationship_target rel source) hg targets) = node_index hg ∧
    e_tgt <$> new =
      filter (λ v, has_node (graph hg) (resolve (node_index hg) source)
                   && has_node (graph hg) v = true)
        (omap (resolve_opt (node_index hg)) targets) ∧
    Forall (λ e, e_src e = resolve (node_index hg) source ∧
                 e_data e = relationship_edge rel) new.
Proof.
  revert hg. induction targets as [|t ts IH]; intros hg; simpl.
  - exists []. by rewrite app_nil_r.
  - unfold add_relationship_target at 2 4 6.
    destruct (resolve_opt (node_index hg) t) as [target_id|] eqn:Ht.
    + rewrite filter_cons.
      destruct (has_node (graph hg) (resolve (node_index hg) source)
                && has_node (graph hg) target_id) eqn:Hguard.
      * rewrite decide_True by done.
        pose proof (add_edge_guarded_nodes _ _ _ (relationship_edge rel) Hguard) as Hsame.
        destruct (IH (with_graph hg (add_edge (graph hg) (resolve (node_index hg) source)
                                       target_id (relationship_edge rel))))
          as (new & Hedges & Hnodes & Hidx & Htgt & Hall).
        eexists (_ :: new).
        split; [rewrite Hedges; simpl; by rewrite <- app_assoc|].
        split; [rewrite Hnodes; exact Hsame|].
        split; [exact Hidx|].
        split.
        -- rewrite fmap_cons, Htgt. f_equal. apply list_filter_iff. intros v.
           cbn [graph with_graph node_index].
           by rewrite !(has_node_ext (add_edge _ _ _ _) (graph hg)) by exact Hsame.
        -- constructor; [done|exact Hall].
      * rewrite decide_False by done.
        destruct (IH hg) as (new & Hedges & Hnodes & Hidx & Htgt & Hall).
        exists new. by repeat split.
    + destruct (IH hg) as (new & Hedges & Hnodes & Hidx & Htgt & Hall).
      exists new. by repeat split.
Qed.

(** C6 (as amended). A relationship record that has its source is processed
    without an exception. It is appended to the hyperedge store exactly when
    it has more than one target, whether or not its participants resolve.
    The edges it adds are, in the order of its targets, one edge from the
    resolved source to each resolved target for which both are nodes of the
    graph; the edge of every other target is skipped, and neither the nodes
    nor the name index change. In particular, when the source or every one
    of the targets resolves to no node, the graph is left as it was. *)
Theorem relationship_retention (hg : SCMLexHypergraph) (rel : relationship_dict)
    (source : string) :
  rel_source_node rel = Some source →
  ∃ hg' new, add_relationship hg rel = inr hg' ∧
    hyperedges hg' = hyperedges hg ++
      (if bool_decide (1 < length (relationship_targets rel))
       then [HRelationship rel] else []) ∧
    g_edges (graph hg') = g_edges (graph hg) ++ new ∧
    e_tgt <$> new =
      filter (λ v, has_node (graph hg) (resolve (node_index hg) source)
                   && has_node (graph hg) v = true)
        (omap (resolve_opt (node_index hg)) (relationship_targets rel)) ∧
    Forall (λ e, e_src e = resolve (node_index hg) source ∧
                 e_data e = relationship_edge rel) new ∧
    g_node (graph hg') = g_node (graph hg) ∧
    node_index hg' = node_index hg ∧
    (has_node (graph hg) (resolve (node_index hg) source) = false ∨
     Forall (λ t, has_node_opt (graph hg) (resolve_opt (node_index hg) t) = false)
       (relationship_targets rel) →
     graph hg' = graph hg).
Proof.
  intros Hsrc. unfold add_relationship. rewrite Hsrc. simpl.
  destruct (add_relationship_targets_edges rel source (relationship_targets rel) hg)
    as (new & Hedges & Hnodes & Hidx & Htgt & Hall).
  eexists _, new. split; [reflexivity|]. split.
  { destruct (bool_decide _); simpl.
    - by rewrite add_relationship_targets_hyperedges.
    - by rewrite add_relationship_targets_hyperedges, app_nil_r. }
  split; [by destruct (bool_decide _)|].
  split; [exact Htgt|]. split; [exact Hall|].
  split; [by destruct (bool_decide _)|].
  split; [by destruct (bool_decide _)|].
  intros Hskip. rewrite add_relationship_targets_skip by done.
  by destruct (bool_decide _).
Qed.

(** On the snapshot holding P1 "pacta-sunt-servanda", P2 "good-faith" and
    R1, the relationship from "pacta-sunt-servanda" to "good-faith" and to
    a name that matches no node adds the one edge P1 -> P2, skips the other
    target, and is retained. *)
Lemma relationship_retention_witness :
  ∃ hg hg',
    build contract_nodes = inr hg ∧
    add_relationship hg half_dangling_relationship = inr hg' ∧
    hyperedges hg' = [HRelationship half_dangling_relationship] ∧
    (λ e, (e_src e, e_tgt e)) <$> g_edges (graph hg') = [("P1", "P2")].
Proof.
  destruct (build contract_nodes) as [err|hg] eqn:Hb; [by vm_compute in Hb|].
  destruct (relationship_retention hg half_dangling_relationship
              "pacta-sunt-servanda" eq_refl)
    as (hg' & new & Hrun & Hstore & Hedges & Htgt & Hall & _).
  exists hg, hg'. split; [done|]. split; [exact Hrun|].
  vm_compute in Hb. injection Hb as <-.
  split; [rewrite Hstore; by vm_compute|].
  rewrite Hedges.
  destruct new as [|e [|e' new]]; [by vm_compute in Htgt| |by vm_compute in Htgt].
  apply Forall_cons_1 in Hall as [[Hsrc _] _].
  assert (e_tgt e = "P2") as Ht by (vm_compute in Htgt; by injection Htgt).
  simpl. rewrite Hsrc, Ht. by vm_compute.
Defined.

(** C6, the claim as stated, fails: a relationship whose single target
    matches no node produces no edge and is _not_ in the hyperedge store. *)
Lemma single_target_relationship_not_retained :
  ∃ hg, build dangling_scenario = inr hg ∧
    g_edges (graph hg) = [] ∧
    find_related_principles hg "pacta-sunt-servanda" = inr [] ∧
    HRelationship dangling_relationship ∉ hyperedges hg.
Proof.
  eexists. split; [by vm_compute|]. split; [by vm_compute|].
  split; [by vm_compute|]. simpl. apply not_elem_of_nil.
Qed.

(** ** Endpoints of derivation edges *)

Lemma add_derivation_sources_edges deriv target sources hg :
  ∃ new,
    g_edges (graph (foldl (add_derivation_source deriv target) hg sources)) =
      g_edges (graph hg) ++ new ∧
    g_node (graph (foldl (add_derivation_source deriv target) hg sources)) =
      g_node (graph hg) ∧
    node_index (foldl (add_derivation_source deriv target) hg sources) = node_index hg ∧
    hyperedges (foldl (add_derivation_source deriv target) hg sources) = hyperedges hg ∧
    e_src <$> new =
      filter (λ u, has_node (graph hg) u && has_node (graph hg) target = true)
        (resolve (node_index hg) <$> sources) ∧
    Forall (λ e, e_tgt e = target ∧ e_data e = derivation_edge deriv) new.
Proof.
  revert hg. induction sources as [|s ss IH]; intros hg; simpl.
  - exists []. by rewrite app_nil_r.
  - rewrite filter_cons. unfold add_derivation_source at 2 4 6 8.
    destruct (has_node (graph hg) (resolve (node_index hg) s)
              && has_node (graph hg) target) eqn:Hguard.
    + rewrite decide_True by done.
      pose proof (add_edge_guarded_nodes _ _ _ (derivation_edge deriv) Hguard) as Hsame.
      destruct (IH (with_graph hg (add_edge (graph hg) (resolve (node_index hg) s)
                                     target (derivation_edge deriv))))
        as (new & Hedges & Hnodes & Hidx & Hhyp & Hsrc & Hall).
      eexists (_ :: new).
      split; [rewrite Hedges; simpl; by rewrite <- app_assoc|].
      split; [rewrite Hnodes; exact Hsame|].
      split; [exact Hidx|]. split; [exact Hhyp|].
      split.
      * rewrite fmap_cons, Hsrc. f_equal. apply list_filter_iff. intros u.
        cbn [graph with_graph].
        by rewrite !(has_node_ext (add_edge _ _ _ _) (graph hg)) by exact Hsame.
      * constructor; [done|exact Hall].
    + rewrite decide_False by done.
      destruct (IH hg) as (new & Hedges & Hnodes & Hidx & Hhyp & Hsrc & Hall).
      exists new. by repeat split.
Qed.

(** C5 (as amended). For every derivation hyperedge the edges it adds run
    from the sources, each resolved through the name index or passed through
    unchanged, taken in order and kept when both endpoints are nodes, to
    [target_node] itself: the target is used as it stands and is not looked
    up in the name index. *)
Theorem derivation_endpoints (hg : SCMLexHypergraph) (deriv : derivation_dict) :
  ∃ new,
    g_edges (graph (add_derivation hg deriv)) = g_edges (graph hg) ++ new ∧
    e_src <$> new =
      filter (λ u, has_node (graph hg) u &&
                   has_node (graph hg) (get (der_target_node deriv) "") = true)
        (resolve (node_index hg) <$> get (der_source_nodes deriv) []) ∧
    Forall (λ e, e_tgt e = get (der_target_node deriv) "" ∧
                 e_data e = derivation_edge deriv) new.
Proof.
  destruct (add_derivation_sources_edges deriv (get (der_target_node deriv) "")
              (get (der_source_nodes deriv) []) hg)
    as (new & Hedges & _ & _ & _ & Hsrc & Hall).
  exists new. unfold add_derivation. simpl. by rewrite Hedges.
Qed.

(** C5, the claim as stated, fails: with the rule "enforce-contract" in the
    index and in the graph, a derivation that names it as its target adds no
    edge at all. *)
Lemma derivation_target_not_resolved :
  ∃ hg, build contract_nodes = inr hg ∧
    ¬ derivation_target_resolved hg named_target_derivation.
Proof.
  eexists. split; [by vm_compute|]. intros Hclaim.
  destruct (Hclaim "pacta-sunt-servanda" "R1") as (e & He & _).
  - simpl. by left.
  - by vm_compute.
  - by vm_compute.
  - by vm_compute.
  - vm_compute in He. by apply elem_of_nil in He.
Qed.

(** ** Which payloads build *)

(** A loop whose turns read one key and cannot fail otherwise runs to its
    end when every record has the key, and raises [KeyError] if not. *)
Lemma for_each_keyed {A S V} (f : S → A → result S) (k : string)
    (key : A → option V) (g : S → A → V → S) :
  (∀ s x, f s x = (v ← getitem k (key x); ok (g s x v))) →
  ∀ l s, if all_keyed key l then ∃ s', for_each f s l = inr s'
         else for_each f s l = inl (KeyError k).
Proof.
  intros Hf. induction l as [|x l IH]; intros s; simpl; [by eexists|].
  rewrite Hf. destruct (key x) as [v|]; simpl; [|done].
  apply IH.
Qed.

Lemma _add_principles_keyed hg ps :
  if all_keyed p_node_id ps then ∃ hg', _add_principles hg ps = inr hg'
  else _add_principles hg ps = inl (KeyError "node_id").
Proof. by apply (for_each_keyed _ _ _ (λ s p v, with_node s v (principle_attrs p) (p_name p))). Qed.

Lemma _add_rules_keyed hg rs :
  if all_keyed r_node_id rs then ∃ hg', _add_rules hg rs = inr hg'
  else _add_rules hg rs = inl (KeyError "node_id").
Proof. by apply (for_each_keyed _ _ _ (λ s r v, with_node s v (rule_attrs r) (r_name r))). Qed.

Lemma _add_concepts_keyed hg cs :
  if all_keyed c_node_id cs then ∃ hg', _add_concepts hg cs = inr hg'
  else _add_concepts hg cs = inl (KeyError "node_id").
Proof.
  destruct cs as [|c cs]; [by eexists|]. unfold _add_concepts.
  by apply (for_each_keyed _ _ _ (λ s c v, with_node s v (concept_attrs c) (c_name c))).
Qed.

Lemma _add_domains_keyed hg ds :
  if all_keyed d_node_id ds then ∃ hg', _add_domains hg ds = inr hg'
  else _add_domains hg ds = inl (KeyError "node_id").
Proof. by apply (for_each_keyed _ _ _ (λ s d v, with_node s v (domain_attrs d) (d_name d))). Qed.

Lemma _add_relationships_keyed hg rels :
  if all_keyed rel_source_node rels then ∃ hg', _add_relationships hg rels = inr hg'
  else _add_relationships hg rels = inl (KeyError "source_node").
Proof.
  by apply (for_each_keyed _ _ _
    (λ s rel v,
       if bool_decide (1 < length (relationship_targets rel))
       then with_hyperedge (foldl (add_relationship_target rel v) s (relationship_targets rel))
              (HRelationship rel)
       else foldl (add_relationship_target rel v) s (relationship_targets rel))).
Qed.

(** Runs one group loop of [load_from_tuples] in the goal. *)
Ltac run_group lem adder key :=
  match goal with
  | |- context [adder ?h ?l] =>
      let H := fresh "Hrun" in
      pose proof (lem h l) as H;
      destruct (all_keyed key l);
      [destruct H as [? H]|]; rewrite H; simpl; [|by eauto]
  end.

(** C3 (as amended). [load_from_tuples] on a fresh builder succeeds exactly
    when the payload has all six groups [nodes.principles], [nodes.rules],
    [nodes.concepts], [nodes.domains], [hyperedges.relationships] and
    [hyperedges.derivations], every node record has a ['node_id'] and every
    relationship a ['source_node']; otherwise it raises [KeyError]. *)
Theorem build_succeeds_iff_complete (data : ingest_payload) :
  if payload_complete data then ∃ hg, build data = inr hg
  else ∃ key, build data = inl (KeyError key).
Proof.
  destruct data as [[[ps rs cs ds]|] [[rels derivs]|]];
    unfold build, load_from_tuples, payload_complete; simpl; try by eauto.
  - destruct ps as [ps|]; simpl; [|by destruct rs, cs, ds, rels, derivs; eauto].
    destruct rs as [rs|]; simpl.
    2:{ run_group _add_principles_keyed _add_principles p_node_id.
        destruct cs, ds, rels, derivs; eauto. }
    destruct cs as [cs|]; simpl.
    2:{ run_group _add_principles_keyed _add_principles p_node_id.
        run_group _add_rules_keyed _add_rules r_node_id.
        destruct ds, rels, derivs; eauto. }
    destruct ds as [ds|]; simpl.
    2:{ run_group _add_principles_keyed _add_principles p_node_id.
        run_group _add_rules_keyed _add_rules r_node_id.
        run_group _add_concepts_keyed _add_concepts c_node_id.
        destruct rels, derivs; eauto. }
    destruct rels as [rels|]; simpl.
    2:{ run_group _add_principles_keyed _add_principles p_node_id.
        run_group _add_rules_keyed _add_rules r_node_id.
        run_group _add_concepts_keyed _add_concepts c_node_id.
        run_group _add_domains_keyed _add_domains d_node_id.
        destruct derivs; eauto. }
    destruct derivs as [derivs|]; simpl.
    + run_group _add_principles_keyed _add_principles p_node_id.
      run_group _add_rules_keyed _add_rules r_node_id.
      run_group _add_concepts_keyed _add_concepts c_node_id.
      run_group _add_domains_keyed _add_domains d_node_id.
      run_group _add_relationships_keyed _add_relationships rel_source_node.
      by eexists.
    + run_group _add_principles_keyed _add_principles p_node_id.
      run_group _add_rules_keyed _add_rules r_node_id.
      run_group _add_concepts_keyed _add_concepts c_node_id.
      run_group _add_domains_keyed _add_domains d_node_id.
      run_group _add_relationships_keyed _add_relationships rel_source_node.
      by eauto.
  - destruct ps as [ps|]; simpl; [|by eauto].
    run_group _add_principles_keyed _add_principles p_node_id.
    destruct rs as [rs|]; simpl; [|by eauto].
    run_group _add_rules_keyed _add_rules r_node_id.
    destruct cs as [cs|]; simpl; [|by eauto].
    run_group _add_concepts_keyed _add_concepts c_node_id.
    destruct ds as [ds|]; simpl; [|by eauto].
    run_group _add_domains_keyed _add_domains d_node_id.
    by eauto.
Qed.

(** C3, the claim as stated, fails: a payload with the four groups called
    required, but without [nodes.concepts], does not build. *)
Lemma missing_concepts_fails :
  has_required_groups no_concepts_scenario = true ∧
  build no_concepts_scenario = inl (KeyError "concepts").
Proof. split; by vm_compute. Qed.

(** ** Path confidence *)









(** Multiplying by 1.0 is exact in binary64. *)
Lemma SFmul_1_l x :
  SpecFloat.valid_binary prec emax x = true → SFmul prec emax (Prim2SF 1) x = x.
Proof.
  replace (Prim2SF 1) with (S754_finite false 4503599627370496 (-52)) by (by vm_compute).
  destruct x as [s|s| |s m e]; try done.
  unfold SpecFloat.valid_binary, bounded, canonical_mantissa.
  intros [Hcanon%Z.eqb_eq Hle]%andb_prop.
  cbn [SFmul xorb]. unfold binary_round_aux, shr_fexp.
  cbn [Zdigits2 shr_record_of_loc].
  change (4503599627370496 * m)%positive with (Pos.iter xO m 52).
  assert (Hd : (Z.pos (digits2_pos (Pos.iter xO m 52)) + (-52 + e) =
                Z.pos (digits2_pos m) + e)%Z).
  { cbn [Pos.iter digits2_pos]. lia. }
  rewrite Hd, Hcanon.
  replace (e - (-52 + e))%Z with 52%Z by lia.
  cbn [shr].
  change (SpecFloat.iter_pos shr_1 52 _)
    with {| shr_m := Z.pos m; shr_r := false; shr_s := false |}.
  cbn [shr_m loc_of_shr_record round_nearest_even Zdigits2].
  replace (-52 + e + 52)%Z with e by lia.
  rewrite Hcanon, Z.sub_diag. cbn [shr shr_m]. by rewrite Hle.
Qed.

Lemma float_mul_1_l (x : float) : (1 * x)%float = x.
Proof. apply Prim2SF_inj. rewrite mul_spec. apply SFmul_1_l, Prim2SF_valid. Qed.

(** The loop multiplies the factors of the chain in their order. *)
Lemma foldl_float_confidence_step chain c :
  foldl float_confidence_step c chain =
    foldl PrimFloat.mul c (float_of_Q <$> chain_factors chain).
Proof.
  revert c. induction chain as [|item chain IH]; intros c; [done|].
  unfold chain_factors. rewrite bind_cons, fmap_app, foldl_app. simpl foldl at 1.
  rewrite IH. unfold float_confidence_step. by destruct (edge_to_next item).
Qed.

(** C1 (as amended). [compute_path_confidence], run on doubles as Python
    runs it, returns [round(p, 4)] where [p] is the product taken from the
    left, starting at 1.0 and rounded to a double at every multiplication,
    of each step's node confidence followed by the confidence impact of its
    edge when it has one (each 1.0 when absent). It returns 1.0 for the
    empty chain; for a chain of one node it returns that node's confidence
    rounded to four decimals. The rounding of the products shows in the
    result: the chain 0.65 -0.95-> 0.9 gives 0.5557, where the exact
    product 0.55575 rounds to 0.5558. *)
Theorem path_confidence_rounded_product (chain : list chain_item) :
  compute_path_confidence_float chain =
    float_round4 (float_product (float_of_Q <$> chain_factors chain)) ∧
  compute_path_confidence_float [] = 1%float ∧
  (∀ item, edge_to_next item = None →
    compute_path_confidence_float [item] =
      float_round4 (float_of_Q (get (item_confidence item) 1%Q))) ∧
  compute_path_confidence_float tie_chain = float_of_Q (5557 # 10000) ∧
  (round4 (chain_product tie_chain) == 5558 # 10000)%Q.
Proof.
  split; [|split; [|split; [|split]]].
  - unfold compute_path_confidence_float, float_product.
    by rewrite foldl_float_confidence_step.
  - by vm_compute.
  - intros item Hedge. unfold compute_path_confidence_float. simpl.
    unfold float_confidence_step. by rewrite Hedge, float_mul_1_l.
  - by vm_compute.
  - by vm_compute.
Qed.

(** A node whose confidence is written 0.12345 gives 0.1235: the double
    read from that literal lies above the tie that the decimal itself sits
    on. *)
Lemma path_confidence_rounded_product_witness :
  compute_path_confidence_float [node_step (Some (12345 # 100000)%Q)] =
    float_of_Q (1235 # 10000).
Proof.
  destruct (path_confidence_rounded_product []) as (_ & _ & Hone & _).
  rewrite (Hone (node_step (Some (12345 # 100000)%Q)) eq_refl).
  by vm_compute.
Defined.

(** C1, the claim as stated, fails: a single-node chain whose node has
    confidence 0.5 gives 0.5, not 1.0, in exact arithmetic and on doubles
    alike. *)
Lemma single_node_confidence_not_one :
  (compute_path_confidence [node_step (Some (1 # 2)%Q)] == 1 # 2)%Q ∧
  ¬ (compute_path_confidence [node_step (Some (1 # 2)%Q)] == 1)%Q ∧
  compute_path_confidence_float [node_step (Some (1 # 2)%Q)] = 0.5%float ∧
  compute_path_confidence_float [node_step (Some (1 # 2)%Q)] ≠ 1%float.
Proof.
  split; [reflexivity|]. split; [intros H; vm_compute in H; discriminate|].
  split; [by vm_compute|]. intros H. vm_compute in H.
  apply (f_equal (λ x, PrimFloat.eqb x 1)) in H. vm_compute in H. discriminate.
Qed.

(** C2 (as amended). In the contract scenario the inference chain from
    "pacta-sunt-servanda" to "enforce-contract" has two steps, P1 then R1,
    and its path confidence is 1.0 * 0.95 * 0.95 = 0.9025: the confidence of
    P1, the impact of the derivation edge and the confidence of R1. The
    value is 0.9025 in exact arithmetic and on doubles alike. *)
Theorem contract_scenario_chain :
  ∃ hg chain,
    build contract_scenario = inr hg ∧
    build_inference_chain hg "pacta-sunt-servanda" "enforce-contract" = inr (Some chain) ∧
    item_id <$> chain = [Some "P1"; Some "R1"] ∧
    (compute_path_confidence chain == 9025 # 10000)%Q ∧
    compute_path_confidence_float chain = float_of_Q (9025 # 10000).
Proof. do 2 eexists. repeat split; by vm_compute. Qed.

(** C2, the claim as stated, fails: the path confidence of that chain is
    not 0.95. *)
Lemma contract_scenario_confidence_not_095 :
  ∃ hg chain,
    build contract_scenario = inr hg ∧
    build_inference_chain hg "pacta-sunt-servanda" "enforce-contract" = inr (Some chain) ∧
    length chain = 2 ∧
    ¬ (compute_path_confidence chain == 95 # 100)%Q.
Proof.
  do 2 eexists. split; [by vm_compute|]. split; [by vm_compute|].
  split; [reflexivity|]. intros H. vm_compute in H. discriminate.
Qed.

(** ** Confidence monotonicity *)







(** ** The edge attached to a step of an inference chain *)







(** ** All simple paths *)

Lemma extend_paths_eq g target fuel path cur :
  extend_paths g target fuel path cur =
    (e ← out_edges g cur;
     if bool_decide (e_tgt e ∈ path) then []
     else if bool_decide (e_tgt e = target) then [path ++ [e_tgt e]]
     else match fuel with
          | O => []
          | S fuel' => extend_paths g target fuel' (path ++ [e_tgt e]) (e_tgt e)
          end).
Proof. by destruct fuel. Qed.

Lemma directed_path_snoc g path cur v :
  directed_path g path → last path = Some cur → is_edge g cur v →
  directed_path g (path ++ [v]).
Proof.
  induction path as [|u rest IH]; [done|]. destruct rest as [|w rest].
  - intros _ [= ->] Hedge. simpl. done.
  - intros [Huw Hrest] Hlast Hedge. split; [done|]. by apply IH.
Qed.

Lemma sublist_bind {A B} (f1 f2 : A → list B) l :
  (∀ x, f1 x `sublist_of` f2 x) → (l ≫= f1) `sublist_of` (l ≫= f2).
Proof.
  intros Hf. induction l as [|x l IH]; [done|].
  rewrite !bind_cons. by apply sublist_app.
Qed.

(** Every path found by the search extends the current path by at least one
    and at most [fuel + 1] nodes, repeats no node, follows edges of the
    graph, stays inside the node set and ends in the target. *)
Lemma extend_paths_sound g target fuel path cur p :
  edges_closed g → p ∈ extend_paths g target fuel path cur →
  last path = Some cur → NoDup path → directed_path g path →
  Forall (is_node g) path →
  ∃ suffix, p = path ++ suffix ∧ 0 < length suffix ≤ S fuel ∧
    NoDup p ∧ directed_path g p ∧ Forall (is_node g) p ∧ last p = Some target.
Proof.
  intros Hclosed. revert path cur.
  induction fuel as [|fuel IH]; intros path cur Hin Hlast Hnodup Hpath Hnodes;
    rewrite extend_paths_eq in Hin;
    apply list_elem_of_bind in Hin as (e & Hp & [He Hsrc]%out_edges_spec);
    (destruct (bool_decide (e_tgt e ∈ path)) eqn:Hseen;
       [by apply elem_of_nil in Hp|]);
    apply bool_decide_eq_false in Hseen;
    assert (NoDup (path ++ [e_tgt e])) as Hnodup'
      by (apply NoDup_app; repeat split;
          [done|by intros x Hx ->%list_elem_of_singleton|apply NoDup_singleton]);
    assert (directed_path g (path ++ [e_tgt e])) as Hpath'
      by (eapply directed_path_snoc; [done..|by exists e]);
    assert (Forall (is_node g) (path ++ [e_tgt e])) as Hnodes'
      by (apply Forall_app; split; [done|];
          apply Forall_singleton; by destruct (Hclosed e He));
    (destruct (bool_decide (e_tgt e = target)) eqn:Htarget;
       [apply bool_decide_eq_true in Htarget;
        apply list_elem_of_singleton in Hp as ->;
        exists [e_tgt e]; simpl; repeat split; try done; try lia;
        by rewrite last_snoc, Htarget|]).
  - by apply elem_of_nil in Hp.
  - destruct (IH _ _ Hp) as (suffix & -> & Hlen & Hnd & Hdp & Hns & Hl);
      [by rewrite last_snoc|done..|].
    exists (e_tgt e :: suffix). rewrite <- app_assoc in *. simpl in *.
    repeat split; try done; lia.
Qed.

(** A larger bound keeps every path found with a smaller one, in the same
    order. *)
Lemma extend_paths_mono g target (fuel fuel' : nat) path cur :
  (fuel ≤ fuel')%nat →
  extend_paths g target fuel path cur `sublist_of` extend_paths g target fuel' path cur.
Proof.
  revert fuel' path cur. induction fuel as [|fuel IH]; intros fuel' path cur Hle;
    rewrite (extend_paths_eq _ _ fuel'), extend_paths_eq;
    apply sublist_bind; intros e;
    destruct (bool_decide (e_tgt e ∈ path)); [done| |done|];
    destruct (bool_decide (e_tgt e = target)); try done.
  - apply sublist_nil_l.
  - destruct fuel' as [|fuel']; [lia|]. apply IH. lia.
Qed.

Lemma detailed_path_total g i path :
  Forall (is_node g) path → ∃ items, detailed_path g i path = inr items.
Proof.
  revert i. induction path as [|n path IH]; intros i Hnodes; simpl; [by eexists|].
  inversion Hnodes as [|? ? Hn Hrest]; subst.
  destruct (nodes_getitem_total g n Hn) as [d ->]. simpl.
  destruct (IH (S i) Hrest) as [items ->]. by eexists.
Qed.

Lemma detailed_path_ids g i path items :
  detailed_path g i path = inr items → item_id <$> items = Some <$> path.
Proof.
  revert i items. induction path as [|n path IH]; intros i items Hrun; simpl in Hrun.
  - by injection Hrun as <-.
  - bind_inv Hrun. injection Hrun as <-. simpl. f_equal. by eapply IH.
Qed.

Lemma collect_elem_of {A B} (f : A → result B) l ys y :
  collect f l = inr ys → y ∈ ys → ∃ x, x ∈ l ∧ f x = inr y.
Proof.
  revert ys. induction l as [|x l IH]; intros ys Hrun Hy; simpl in Hrun.
  - injection Hrun as <-. by apply elem_of_nil in Hy.
  - bind_inv Hrun. injection Hrun as <-.
    apply elem_of_cons in Hy as [->|Hy].
    + exists x. split; [left|done].
    + destruct (IH _ Hx0 Hy) as (x' & Hin & Hfx). exists x'. split; [by right|done].
Qed.

(** Collecting over a sublist gives a sublist of the results. *)
Lemma collect_sublist {A B} (f : A → result B) l l' ys' :
  l `sublist_of` l' → collect f l' = inr ys' →
  ∃ ys, collect f l = inr ys ∧ ys `sublist_of` ys'.
Proof.
  intros Hsub. revert ys'. induction Hsub as [|x l l' Hsub IH|x l l' Hsub IH];
    intros ys' Hrun; simpl in Hrun.
  - exists []. split; [done|apply sublist_nil_l].
  - bind_inv Hrun. injection Hrun as <-.
    destruct (IH _ Hx0) as (ys & Hys & Hsubys). exists (x0 :: ys). simpl.
    rewrite Hx, Hys. split; [done|]. by constructor.
  - bind_inv Hrun. injection Hrun as <-.
    destruct (IH _ Hx0) as (ys & Hys & Hsubys). exists ys.
    split; [done|]. by constructor.
Qed.

(** What [all_simple_paths] returns between two nodes of a closed graph. *)
Lemma all_simple_paths_sound g source target cutoff :
  edges_closed g → is_node g source → is_node g target →
  ∃ paths, all_simple_paths g source target cutoff = inr paths ∧
    ∀ p, p ∈ paths →
      directed_path g p ∧ NoDup p ∧ Forall (is_node g) p ∧
      (Z.of_nat (length p) - 1 ≤ cutoff)%Z ∧
      head p = Some source ∧ last p = Some target.
Proof.
  intros Hclosed Hs Ht. unfold all_simple_paths.
  rewrite (proj2 (has_node_true g source) Hs), (proj2 (has_node_true g target) Ht).
  simpl. eexists. split; [reflexivity|]. intros p Hp.
  destruct (bool_decide (cutoff < 0)%Z) eqn:Hneg; [by apply elem_of_nil in Hp|].
  apply bool_decide_eq_false in Hneg.
  destruct (bool_decide (source = target)) eqn:Hsame.
  { apply bool_decide_eq_true in Hsame as <-.
    apply list_elem_of_singleton in Hp as ->. simpl.
    repeat split; try done; [apply NoDup_singleton|by apply Forall_singleton|lia]. }
  destruct (bool_decide (cutoff = 0)%Z) eqn:Hzero; [by apply elem_of_nil in Hp|].
  apply bool_decide_eq_false in Hzero.
  destruct (extend_paths_sound g target _ [source] source p Hclosed Hp)
    as (suffix & -> & Hlen & Hnd & Hdp & Hns & Hl);
    [done|apply NoDup_singleton|done|by apply Forall_singleton|].
  repeat split; try done. simpl. lia.
Qed.

Lemma all_simple_paths_mono g source target (cutoff cutoff' : Z) paths' :
  (cutoff ≤ cutoff')%Z →
  all_simple_paths g source target cutoff' = inr paths' →
  ∃ paths, all_simple_paths g source target cutoff = inr paths ∧
    paths `sublist_of` paths'.
Proof.
  intros Hle. unfold all_simple_paths.
  destruct (negb (has_node g source)); [done|].
  destruct (negb (has_node g target)); [done|].
  intros [= <-]. eexists. split; [reflexivity|].
  destruct (bool_decide (cutoff < 0)%Z) eqn:Hneg; [apply sublist_nil_l|].
  apply bool_decide_eq_false in Hneg.
  rewrite (bool_decide_eq_false_2 (cutoff' < 0)%Z) by lia.
  destruct (bool_decide (source = target)); [done|].
  destruct (bool_decide (cutoff = 0)%Z) eqn:Hzero; [apply sublist_nil_l|].
  apply bool_decide_eq_false in Hzero.
  rewrite (bool_decide_eq_false_2 (cutoff' = 0)%Z) by lia.
  apply extend_paths_mono. lia.
Qed.

(** C7. On every built snapshot, for all names and every bound,
    [find_all_paths] returns (it is a total function, also on graphs with
    cycles, and raises nothing); every path it returns is a directed path of
    the graph from the start node to the end node without a repeated node
    and with at most [max_length] edges; it returns the empty list when
    either name is unresolved; and for a larger bound it returns a list that
    contains the paths of the smaller bound, unaltered and in the same
    order. *)
Theorem find_all_paths_bounded (data : ingest_payload) (hg : SCMLexHypergraph)
    (start_principle end_rule : string) (max_length : Z) :
  build data = inr hg →
  ∃ paths, find_all_paths hg start_principle end_rule max_length = inr paths ∧
    (∀ p, p ∈ paths →
       ∃ ns, item_id <$> p = Some <$> ns ∧
         directed_path (graph hg) ns ∧ NoDup ns ∧
         (Z.of_nat (length ns) - 1 ≤ max_length)%Z ∧
         head ns = node_index hg !! start_principle ∧
         last ns = node_index hg !! end_rule) ∧
    (unresolved (node_index hg !! start_principle) = true ∨
     unresolved (node_index hg !! end_rule) = true → paths = []) ∧
    (∀ larger, (max_length ≤ larger)%Z →
       ∃ paths', find_all_paths hg start_principle end_rule larger = inr paths' ∧
         paths `sublist_of` paths').
Proof.
  intros [Hclosed Hkeys Hindex]%build_well_formed. unfold find_all_paths.
  destruct (unresolved (node_index hg !! start_principle)) eqn:Hs.
  { exists []. split; [done|]. split; [by intros p Hp%elem_of_nil|].
    split; [done|]. intros larger _. by exists []. }
  destruct (unresolved (node_index hg !! end_rule)) eqn:He.
  { exists []. split; [done|]. split; [by intros p Hp%elem_of_nil|].
    split; [done|]. intros larger _. by exists []. }
  apply unresolved_false in Hs as (s & Hs & _).
  apply unresolved_false in He as (e & He & _).
  rewrite Hs, He. simpl.
  assert (is_node (graph hg) s) as Hsnode by (by eapply Hindex).
  assert (is_node (graph hg) e) as Henode by (by eapply Hindex).
  assert (∀ k, ∃ paths,
            all_simple_paths (graph hg) s e k = inr paths ∧
            (∀ p, p ∈ paths →
               directed_path (graph hg) p ∧ NoDup p ∧ Forall (is_node (graph hg)) p ∧
               (Z.of_nat (length p) - 1 ≤ k)%Z ∧ head p = Some s ∧ last p = Some e) ∧
            ∃ detailed, collect (detailed_path (graph hg) 0) paths = inr detailed)
    as Hrun.
  { intros k.
    destruct (all_simple_paths_sound (graph hg) s e k) as (paths & Hpaths & Hsound);
      [done..|].
    exists paths. split; [done|]. split; [done|].
    apply collect_total. intros p Hp. apply detailed_path_total.
    by destruct (Hsound p Hp) as (_ & _ & ? & _). }
  destruct (Hrun max_length) as (paths & Hpaths & Hsound & detailed & Hdetailed).
  exists detailed. rewrite Hpaths. simpl. split; [done|]. split; [|split; [by intros [?|?]|]].
  - intros p Hp.
    destruct (collect_elem_of _ _ _ _ Hdetailed Hp) as (ns & Hns & Hitems).
    exists ns. split; [by eapply detailed_path_ids|].
    by destruct (Hsound ns Hns) as (? & ? & _ & ? & ? & ?).
  - intros larger Hle.
    destruct (Hrun larger) as (paths' & Hpaths' & _ & detailed' & Hdetailed').
    exists detailed'. rewrite Hpaths'. simpl. split; [done|].
    destruct (all_simple_paths_mono _ _ _ _ _ _ Hle Hpaths') as (paths0 & Hpaths0 & Hsub).
    assert (paths0 = paths) as -> by congruence.
    destruct (collect_sublist _ _ _ _ Hsub Hdetailed') as (detailed0 & Hd0 & Hsubd).
    by assert (detailed0 = detailed) as -> by congruence.
Qed.

Lemma find_all_paths_bounded_witness :
  ∃ hg paths paths',
    build cyclic_scenario = inr hg ∧
    find_all_paths hg "a" "r" 1 = inr paths ∧
    find_all_paths hg "a" "r" 3 = inr paths' ∧
    length paths = 1 ∧ length paths' = 2 ∧
    paths `sublist_of` paths'.
Proof.
  destruct (build cyclic_scenario) as [err|hg] eqn:Hb; [by vm_compute in Hb|].
  destruct (find_all_paths_bounded cyclic_scenario hg "a" "r" 1 Hb)
    as (paths & Hpaths & _ & _ & Hmono).
  destruct (Hmono 3%Z) as (paths' & Hpaths' & Hsub); [lia|].
  exists hg, paths, paths'. repeat split; try done.
  - injection Hb as <-. vm_compute in Hpaths. by injection Hpaths as <-.
  - injection Hb as <-. vm_compute in Hpaths'. by injection Hpaths' as <-.
Defined.
